(** * optschedule: schedules of a hyperparameter over a fixed number of steps

    A shallow embedding of [src/optschedule/schedule.py] (class [Schedule])
    and [src/optschedule/schedules.py] (class [Schedules]).

    Numbers.  The program computes on numpy's float64.  Here a float64 is an
    exact rational kept in lowest terms, or the token [NotFinite] that stands
    for the results numpy reports with a RuntimeWarning instead of an
    exception (inf and nan).  Rounding is not modelled, and of overflow only
    the one Python raises on, in its float [**]; numpy's silent overflow to
    inf is not.  The properties are therefore stated on the operations the
    program performs, in its order.  An
    operation with a [NotFinite] operand gives [NotFinite], except [pow],
    which C defines as 1 at the exponent 0 and at the base 1.  The token
    merges inf and nan: the finite values IEEE computes from an infinity
    ([x / inf], [pow(inf, y)]) are not followed.  With finite parameters
    the methods never divide by, or raise to, a value that is not finite.
    Where a claim is about the rounding itself, the binary64 operations of
    [b64] below are used instead.

    State.  A method of the class reads the attributes of [self]; it is a
    computation in a state-and-exception monad over the record [self]. *)

From Stdlib Require Import ZArith QArith Qround Qminmax Qpower Qcanon Qabs Lia Lqa Bool.
From Stdlib Require Import PrimFloat SpecFloat FloatOps Uint63.
From stdpp Require Import base list.

Local Open Scope Z_scope.

(** ** Python exceptions and results *)

Inductive exn : Type :=
| ValueError
| TypeError
| IndexError
| ZeroDivisionError
| OverflowError.

Inductive result (A : Type) : Type :=
| Ok (a : A)
| Raise (e : exn).
Arguments Ok {A} a.
Arguments Raise {A} e.

Definition rbind {A B} (r : result A) (k : A -> result B) : result B :=
  match r with
  | Ok a => k a
  | Raise e => Raise e
  end.

(** [for x in xs: acc = body(acc, x)], stopping at the first exception. *)
Fixpoint for_each {A X} (xs : list X) (body : A -> X -> result A) (acc : A)
  : result A :=
  match xs with
  | [] => Ok acc
  | x :: xs' => rbind (body acc x) (for_each xs' body)
  end.

(** Python's [range(n)]. *)
Definition range (n : Z) : list Z :=
  Z.of_nat <$> seq 0 (Z.to_nat n).

(** ** float64 values *)

Inductive f64 : Type :=
| Fin (q : Q)
| NotFinite.

(** Conversion of a Python number to float64. *)
Definition float64 (q : Q) : f64 := Fin (Qred q).

(** A Python [int] used as a float64. *)
Definition of_int (n : Z) : f64 := float64 (inject_Z n).

(** The order of finite float64 values. *)
Definition f64_le (x y : f64) : Prop :=
  match x, y with
  | Fin p, Fin q => (p <= q)%Q
  | _, _ => False
  end.

(** The least magnitude that binary64 rounds to an infinity. *)
Definition double_overflow : Q := (2 ^ 1024 - 2 ^ 970)%Q.

Definition overflows (q : Q) : bool := Qle_bool double_overflow (Qabs q).

(** Python's [x ** i] on a float [x] and an integer [i >= 0]: unlike numpy,
    it raises OverflowError when the power leaves the range of float64. *)
Definition float_pow (x : Q) (i : Z) : result Q :=
  if overflows (x ^ i) then Raise OverflowError else Ok (x ^ i)%Q.

(** The functions of the C library that have no exact rational result:
    cosine, and [pow] at an exponent that is not an integer. *)
Class Libm : Type := {
  libm_cos : Q -> Q;
  libm_pow : Q -> Q -> f64
}.

Definition is_integer (q : Q) : bool := Qeq_bool q (inject_Z (Qfloor q)).

Module np.

Definition pi : Q := 884279719003555 # 281474976710656.

Definition lift2 (f : Q -> Q -> Q) (x y : f64) : f64 :=
  match x, y with
  | Fin p, Fin q => float64 (f p q)
  | _, _ => NotFinite
  end.

Definition add : f64 -> f64 -> f64 := lift2 Qplus.
Definition subtract : f64 -> f64 -> f64 := lift2 Qminus.
Definition multiply : f64 -> f64 -> f64 := lift2 Qmult.
Definition minimum : f64 -> f64 -> f64 := lift2 Qmin.
Definition maximum : f64 -> f64 -> f64 := lift2 Qmax.

(** Division does not raise: a zero divisor gives inf or nan. *)
Definition divide (x y : f64) : f64 :=
  match x, y with
  | Fin p, Fin q => if Qeq_bool q 0 then NotFinite else float64 (p / q)
  | _, _ => NotFinite
  end.

Definition floor (x : f64) : f64 :=
  match x with
  | Fin p => float64 (inject_Z (Qfloor p))
  | NotFinite => NotFinite
  end.

Definition ceil (x : f64) : f64 :=
  match x with
  | Fin p => float64 (inject_Z (Qceiling p))
  | NotFinite => NotFinite
  end.

Definition cos `{Libm} (x : f64) : f64 :=
  match x with
  | Fin p => float64 (libm_cos p)
  | NotFinite => NotFinite
  end.

(** C's [pow]: exact at an integer exponent (with [pow(x, 0) = 1] for
    every [x], nan included, [pow(1, y) = 1] for every [y], and
    [pow(0, y) = inf] at a negative integer [y]); the library's function
    elsewhere. *)
Definition power `{Libm} (x y : f64) : f64 :=
  match x, y with
  | Fin b, Fin e =>
      if is_integer e then
        if (Qfloor e <? 0) && Qeq_bool b 0 then NotFinite
        else float64 (b ^ Qfloor e)
      else libm_pow b e
  | NotFinite, Fin e => if Qeq_bool e 0 then float64 1 else NotFinite
  | Fin b, NotFinite => if Qeq_bool b 1 then float64 1 else NotFinite
  | NotFinite, NotFinite => NotFinite
  end.

(** [np.zeros(n)] and [np.full(n, v)]: a negative length is refused. *)
Definition full (n : Z) (v : f64) : result (list f64) :=
  if n <? 0 then Raise ValueError else Ok (replicate (Z.to_nat n) v).

Definition zeros (n : Z) : result (list f64) := full n (float64 0).

(** [np.arange(0, n)] as float64. *)
Definition arange (n : Z) : list Q := inject_Z <$> range n.

(** [y[-1] = stop] on a non-empty array. *)
Definition set_last (y : list Q) (stop : Q) : list Q :=
  <[Nat.pred (length y) := stop]> y.

(** [np.linspace(start, stop, num)] with the default [endpoint=True]:
    [num] samples [start + i * step], [step = (stop - start) / (num - 1)],
    the last one set to [stop]; a single sample is [start]; a negative
    [num] is refused. *)
Definition linspace (start stop : Q) (num : Z) : result (list f64) :=
  if num <? 0 then Raise ValueError else
  let div := num - 1 in
  let delta := (stop - start)%Q in
  let y := arange num in
  let y :=
    if 0 <? div then
      let step := (delta / inject_Z div)%Q in
      if Qeq_bool step 0
      then (fun v => (v / inject_Z div * delta)%Q) <$> y
      else (fun v => (v * step)%Q) <$> y
    else (fun v => (v * delta)%Q) <$> y in
  let y := (fun v => (v + start)%Q) <$> y in
  let y := if 1 <? num then set_last y stop else y in
  Ok (float64 <$> y).

(** An array of integers or of floats.  An index read from an array of
    floats is a float, which numpy refuses as a length or a slice bound. *)
Inductive ndarray : Type :=
| int64s (l : list Z)
| float64s (l : list f64).

Definition to_floats (a : ndarray) : list f64 :=
  match a with
  | int64s l => of_int <$> l
  | float64s l => l
  end.

(** [np.asarray] of a Python list of integers that fit int64: the empty
    list becomes an empty array of floats.  An integer outside int64 makes
    numpy choose another element type; that is not modelled, and the
    properties that depend on the element type assume the range. *)
Definition of_list (l : list Z) : ndarray :=
  match l with
  | [] => float64s []
  | _ => int64s l
  end.

(** [np.append(a, b)]: the concatenation, of integers when both are. *)
Definition append (a b : ndarray) : ndarray :=
  match a, b with
  | int64s x, int64s y => int64s (x ++ y)
  | _, _ => float64s (to_floats a ++ to_floats b)
  end.

(** [a[i]] and [a[i] = v] for an integer [i], negative ones counted from
    the end. *)
Definition position (len i : Z) : option nat :=
  if (0 <=? i) && (i <? len) then Some (Z.to_nat i)
  else if (- len <=? i) && (i <? 0) then Some (Z.to_nat (i + len))
  else None.

(** [a[i]] used as an integer (a length, a slice bound). *)
Definition index_at (a : ndarray) (i : Z) : result Z :=
  match a with
  | int64s l =>
      match position (Z.of_nat (length l)) i with
      | Some k =>
          match l !! k with
          | Some v => Ok v
          | None => Raise IndexError
          end
      | None => Raise IndexError
      end
  | float64s l =>
      match position (Z.of_nat (length l)) i with
      | Some _ => Raise TypeError
      | None => Raise IndexError
      end
  end.

(** The position a slice bound [k] denotes in an array of length [len]. *)
Definition slice_bound (len k : Z) : Z :=
  if k <? 0 then Z.max 0 (k + len) else Z.min k len.

Definition getitem (a : list f64) (i : Z) : result f64 :=
  match position (Z.of_nat (length a)) i with
  | Some k =>
      match a !! k with
      | Some x => Ok x
      | None => Raise IndexError
      end
  | None => Raise IndexError
  end.

Definition setitem (a : list f64) (i : Z) (v : f64) : result (list f64) :=
  match position (Z.of_nat (length a)) i with
  | Some k => Ok (<[k := v]> a)
  | None => Raise IndexError
  end.

(** [a[start:stop] = src]: [src] has the length of the slice, or one
    element that is repeated; any other length is refused. *)
Definition setslice (a : list f64) (start stop : Z) (src : list f64)
  : result (list f64) :=
  let len := Z.of_nat (length a) in
  let lo := slice_bound len start in
  let hi := slice_bound len stop in
  let width := Z.to_nat (hi - lo) in
  let put (new : list f64) :=
    take (Z.to_nat lo) a ++ new ++ drop (Z.to_nat lo + width) a in
  if Nat.eqb (length src) width then Ok (put src)
  else
    match src with
    | [v] => Ok (put (replicate width v))
    | _ => Raise ValueError
    end.

End np.

(** ** The generator's state and the monad of its methods *)

Record self : Type := mk_self {
  n_steps : Z;
  steps : list f64
}.

Definition M (A : Type) : Type := self -> result A * self.

Definition ret {A} (a : A) : M A := fun s => (Ok a, s).

Definition bind {A B} (m : M A) (k : A -> M B) : M B :=
  fun s =>
    match m s with
    | (Ok a, s') => k a s'
    | (Raise e, s') => (Raise e, s')
    end.

Definition raise {A} (e : exn) : M A := fun s => (Raise e, s).

Definition lift {A} (r : result A) : M A := fun s => (r, s).

Definition self_n_steps : M Z := fun s => (Ok (n_steps s), s).
Definition self_steps : M (list f64) := fun s => (Ok (steps s), s).

Declare Scope py_scope.
Delimit Scope py_scope with py.
Notation "x <- m ;; k" := (bind m (fun x => k))
  (at level 100, m at next level, right associativity) : py_scope.

(** The outcome of a call and the state it leaves. *)
Definition outcome {A} (m : M A) (s : self) : result A := fst (m s).
Definition state_after {A} (m : M A) (s : self) : self := snd (m s).

(** ** [schedule.py]: class [Schedule] *)

Module Schedule.
Section methods.
Context `{Libm}.
Local Open Scope py_scope.

Definition __init__ (n_steps : Z) : result self :=
  rbind (np.linspace 0 (inject_Z n_steps) n_steps)
    (fun steps => Ok {| n_steps := n_steps; steps := steps |}).

Definition exponential_decay (initial_value decay_rate : Q)
    (staircase : bool) : M (list f64) :=
  n <- self_n_steps ;;
  steps <- self_steps ;;
  if staircase then
    ret ((fun x =>
            np.multiply (float64 initial_value)
              (np.power (float64 decay_rate)
                 (np.floor (np.divide x (of_int n))))) <$> steps)
  else
    ret ((fun x =>
            np.multiply (float64 initial_value)
              (np.power (float64 decay_rate)
                 (np.divide x (of_int n)))) <$> steps).

Definition cosine_decay (initial_value alpha : Q) : M (list f64) :=
  n <- self_n_steps ;;
  self_steps_ <- self_steps ;;
  let steps := (fun x => np.minimum x (of_int n)) <$> self_steps_ in
  let cosine_decay :=
    (fun x =>
       np.multiply (float64 (1 # 2))
         (np.add (float64 1)
            (np.cos (np.multiply (float64 np.pi)
                       (np.divide x (of_int n)))))) <$> steps in
  let decayed :=
    (fun c => np.add (np.multiply (float64 (1 - alpha)) c) (float64 alpha))
      <$> cosine_decay in
  let sequence := (fun d => np.multiply (float64 initial_value) d) <$> decayed in
  ret sequence.

Definition inverse_time_decay (initial_value decay_rate : Q)
    (staircase : bool) : M (list f64) :=
  n <- self_n_steps ;;
  steps <- self_steps ;;
  if staircase then
    ret ((fun x =>
            np.divide (float64 initial_value)
              (np.add (float64 1)
                 (np.multiply (float64 decay_rate)
                    (np.floor (np.divide x (of_int n)))))) <$> steps)
  else
    ret ((fun x =>
            np.divide (float64 initial_value)
              (np.add (float64 1)
                 (np.multiply (float64 decay_rate)
                    (np.divide x (of_int n))))) <$> steps).

(** The per-element horizon of the cyclic polynomial decay. *)
Definition horizon (n : Z) (steps : list f64) : list f64 :=
  (fun x => np.multiply (of_int n) (np.ceil (np.divide x (of_int n))))
    <$> steps.

Definition polynomial_decay (initial_value end_value power : Q)
    (cycle : bool) : M (list f64) :=
  n <- self_n_steps ;;
  self_steps_ <- self_steps ;;
  if cycle then
    let n_steps := horizon n self_steps_ in
    ret (zip_with
           (fun x h =>
              np.add
                (np.multiply (float64 (initial_value - end_value))
                   (np.power (np.subtract (float64 1) (np.divide x h))
                      (float64 power)))
                (float64 end_value))
           self_steps_ n_steps)
  else
    let steps := (fun x => np.minimum x (of_int n)) <$> self_steps_ in
    ret ((fun x =>
            np.add
              (np.multiply (float64 (initial_value - end_value))
                 (np.power
                    (np.subtract (float64 1) (np.divide x (of_int n)))
                    (float64 power)))
              (float64 end_value)) <$> steps).

Definition piecewise_constant_decay (boundaries : list Z) (values : list Q)
  : M (list f64) :=
  if negb (Z.of_nat (length boundaries) + 1 =? Z.of_nat (length values))
  then raise ValueError
  else
    n <- self_n_steps ;;
    let boundaries := np.append (np.int64s [0]) (np.of_list boundaries) in
    let boundaries := np.append boundaries (np.int64s [n]) in
    sequence <- lift (np.zeros n) ;;
    lift (for_each (range (Z.of_nat (length values)))
            (fun sequence value =>
               rbind (np.index_at boundaries (value + 1)) (fun hi =>
               rbind (np.index_at boundaries value) (fun lo =>
               match values !! Z.to_nat value with
               | None => Raise IndexError
               | Some v =>
                   rbind (np.full (hi - lo) (float64 v)) (fun piece =>
                   np.setslice sequence lo hi piece)
               end)))
            sequence).

Definition constant (value : Q) : M (list f64) :=
  steps <- self_steps ;;
  lift (np.full (Z.of_nat (length steps)) (float64 value)).

Definition geometric_decay (initial_value decay minimum_value : Q)
  : M (list f64) :=
  n <- self_n_steps ;;
  sequence <- lift (np.zeros n) ;;
  sequence <- lift (np.setitem sequence 0 (float64 initial_value)) ;;
  lift (for_each (range (n - 1))
          (fun sequence i =>
             rbind (float_pow decay i) (fun power =>
             np.setitem sequence (i + 1)
               (np.maximum (float64 (initial_value * power))
                  (float64 minimum_value))))
          sequence).

Definition arithmetic_decay (initial_value decay minimum_value : Q)
  : M (list f64) :=
  n <- self_n_steps ;;
  sequence <- lift (np.zeros n) ;;
  sequence <- lift (np.setitem sequence 0 (float64 initial_value)) ;;
  lift (for_each (range (n - 1))
          (fun sequence i =>
             np.setitem sequence (i + 1)
               (np.maximum (float64 (initial_value - decay * inject_Z i))
                  (float64 minimum_value)))
          sequence).

Definition time_decay (initial_value decay_rate : Q) : M (list f64) :=
  n <- self_n_steps ;;
  sequence <- lift (np.zeros n) ;;
  sequence <- lift (np.setitem sequence 0 (float64 initial_value)) ;;
  lift (for_each (range (n - 1))
          (fun sequence i =>
             rbind (np.getitem sequence i) (fun prev =>
             np.setitem sequence (i + 1)
               (np.divide prev (float64 (1 + decay_rate * inject_Z i)))))
          sequence).

(** Python's [a / b] on integers: a zero divisor raises. *)
Definition truediv (a b : Z) : result Q :=
  if b =? 0 then Raise ZeroDivisionError
  else Ok (inject_Z a / inject_Z b)%Q.

Definition step_decay (initial_value drop : Q) (i_drop : Z) : M (list f64) :=
  n <- self_n_steps ;;
  sequence <- lift (np.zeros n) ;;
  sequence <- lift (np.setitem sequence 0 (float64 initial_value)) ;;
  lift (for_each (range (n - 1))
          (fun sequence i =>
             rbind (truediv (1 + i) i_drop) (fun q =>
             np.setitem sequence (i + 1)
               (np.multiply (float64 initial_value)
                  (np.power (float64 drop) (np.floor (float64 q))))))
          sequence).

End methods.
End Schedule.

(** ** [schedules.py]: class [Schedules] *)

Module Schedules.
Section methods.
Context `{Libm}.
Local Open Scope py_scope.

Definition __init__ (n_steps : Z) : result self :=
  rbind (np.linspace 0 (inject_Z n_steps) n_steps)
    (fun steps => Ok {| n_steps := n_steps; steps := steps |}).

Definition exponential_decay (initial_value decay_rate : Q)
    (staircase : bool) : M (list f64) :=
  n <- self_n_steps ;;
  steps <- self_steps ;;
  if staircase then
    ret ((fun x =>
            np.multiply (float64 initial_value)
              (np.power (float64 decay_rate)
                 (np.floor (np.divide x (of_int n))))) <$> steps)
  else
    ret ((fun x =>
            np.multiply (float64 initial_value)
              (np.power (float64 decay_rate)
                 (np.divide x (of_int n)))) <$> steps).

Definition cosine_decay (initial_value alpha : Q) : M (list f64) :=
  n <- self_n_steps ;;
  self_steps_ <- self_steps ;;
  let steps := (fun x => np.minimum x (of_int n)) <$> self_steps_ in
  let cosine_decay :=
    (fun x =>
       np.multiply (float64 (1 # 2))
         (np.add (float64 1)
            (np.cos (np.multiply (float64 np.pi)
                       (np.divide x (of_int n)))))) <$> steps in
  let decayed :=
    (fun c => np.add (np.multiply (float64 (1 - alpha)) c) (float64 alpha))
      <$> cosine_decay in
  let sequence := (fun d => np.multiply (float64 initial_value) d) <$> decayed in
  ret sequence.

Definition inverse_time_decay (initial_value decay_rate : Q)
    (staircase : bool) : M (list f64) :=
  n <- self_n_steps ;;
  steps <- self_steps ;;
  if staircase then
    ret ((fun x =>
            np.divide (float64 initial_value)
              (np.add (float64 1)
                 (np.multiply (float64 decay_rate)
                    (np.floor (np.divide x (of_int n)))))) <$> steps)
  else
    ret ((fun x =>
            np.divide (float64 initial_value)
              (np.add (float64 1)
                 (np.multiply (float64 decay_rate)
                    (np.divide x (of_int n))))) <$> steps).

(** The per-element horizon of the cyclic polynomial decay. *)
Definition horizon (n : Z) (steps : list f64) : list f64 :=
  (fun x => np.multiply (of_int n) (np.ceil (np.divide x (of_int n))))
    <$> steps.

Definition polynomial_decay (initial_value end_value power : Q)
    (cycle : bool) : M (list f64) :=
  n <- self_n_steps ;;
  self_steps_ <- self_steps ;;
  if cycle then
    let n_steps := horizon n self_steps_ in
    ret (zip_with
           (fun x h =>
              np.add
                (np.multiply (float64 (initial_value - end_value))
                   (np.power (np.subtract (float64 1) (np.divide x h))
                      (float64 power)))
                (float64 end_value))
           self_steps_ n_steps)
  else
    let steps := (fun x => np.minimum x (of_int n)) <$> self_steps_ in
    ret ((fun x =>
            np.add
              (np.multiply (float64 (initial_value - end_value))
                 (np.power
                    (np.subtract (float64 1) (np.divide x (of_int n)))
                    (float64 power)))
              (float64 end_value)) <$> steps).

Definition piecewise_constant_decay (boundaries : list Z) (values : list Q)
  : M (list f64) :=
  if negb (Z.of_nat (length boundaries) + 1 =? Z.of_nat (length values))
  then raise ValueError
  else
    n <- self_n_steps ;;
    let boundaries := np.append (np.int64s [0]) (np.of_list boundaries) in
    let boundaries := np.append boundaries (np.int64s [n]) in
    sequence <- lift (np.zeros n) ;;
    lift (for_each (range (Z.of_nat (length values)))
            (fun sequence value =>
               rbind (np.index_at boundaries (value + 1)) (fun hi =>
               rbind (np.index_at boundaries value) (fun lo =>
               match values !! Z.to_nat value with
               | None => Raise IndexError
               | Some v =>
                   rbind (np.full (hi - lo) (float64 v)) (fun piece =>
                   np.setslice sequence lo hi piece)
               end)))
            sequence).

Definition constant (value : Q) : M (list f64) :=
  steps <- self_steps ;;
  lift (np.full (Z.of_nat (length steps)) (float64 value)).

End methods.
End Schedules.

(** ** Method calls

    A call names a method and carries its arguments.  The six methods of
    both classes are the [shared_call]s; [Schedule] has four more. *)

Inductive shared_call : Type :=
| ExponentialDecay (initial_value decay_rate : Q) (staircase : bool)
| CosineDecay (initial_value alpha : Q)
| InverseTimeDecay (initial_value decay_rate : Q) (staircase : bool)
| PolynomialDecay (initial_value end_value power : Q) (cycle : bool)
| PiecewiseConstantDecay (boundaries : list Z) (values : list Q)
| Constant (value : Q).

Inductive call : Type :=
| Shared (c : shared_call)
| GeometricDecay (initial_value decay minimum_value : Q)
| ArithmeticDecay (initial_value decay minimum_value : Q)
| TimeDecay (initial_value decay_rate : Q)
| StepDecay (initial_value drop : Q) (i_drop : Z).

Definition Schedules_invoke `{Libm} (c : shared_call) : M (list f64) :=
  match c with
  | ExponentialDecay a r b => Schedules.exponential_decay a r b
  | CosineDecay a al => Schedules.cosine_decay a al
  | InverseTimeDecay a r b => Schedules.inverse_time_decay a r b
  | PolynomialDecay a e p b => Schedules.polynomial_decay a e p b
  | PiecewiseConstantDecay bs vs => Schedules.piecewise_constant_decay bs vs
  | Constant v => Schedules.constant v
  end.

Definition Schedule_invoke_shared `{Libm} (c : shared_call) : M (list f64) :=
  match c with
  | ExponentialDecay a r b => Schedule.exponential_decay a r b
  | CosineDecay a al => Schedule.cosine_decay a al
  | InverseTimeDecay a r b => Schedule.inverse_time_decay a r b
  | PolynomialDecay a e p b => Schedule.polynomial_decay a e p b
  | PiecewiseConstantDecay bs vs => Schedule.piecewise_constant_decay bs vs
  | Constant v => Schedule.constant v
  end.

Definition Schedule_invoke `{Libm} (c : call) : M (list f64) :=
  match c with
  | Shared c => Schedule_invoke_shared c
  | GeometricDecay a d m => Schedule.geometric_decay a d m
  | ArithmeticDecay a d m => Schedule.arithmetic_decay a d m
  | TimeDecay a r => Schedule.time_decay a r
  | StepDecay a d k => Schedule.step_decay a d k
  end.

(** The boundaries that cut [0, n] into consecutive pieces:
    [0 <= b1 <= ... <= bk <= n]. *)
Fixpoint ascending_from (lo : Z) (bs : list Z) (n : Z) : bool :=
  match bs with
  | [] => lo <=? n
  | b :: bs' => (lo <=? b) && ascending_from b bs' n
  end.

Definition partitions (bs : list Z) (n : Z) : bool :=
  match bs with
  | [] => false
  | _ => ascending_from 0 bs n
  end.

(** ** Notions used to state the properties *)

(** A computation that leaves the generator as it found it. *)
Definition preserves_state {A} (m : M A) : Prop := forall s, snd (m s) = s.

(** Element [i] of a sequence is the number [q]. *)
Definition element (l : list f64) (i : nat) (q : Q) : Prop :=
  exists p, l !! i = Some (Fin p) /\ (p == q)%Q.

(** [sequence = np.zeros(n); sequence[0] = v; for i in range(n - 1):
    sequence[i + 1] = f(sequence, i)]: the loop of the four recurrences. *)
Definition recurrence (n : Z) (v : f64)
    (body : list f64 -> Z -> result (list f64)) : result (list f64) :=
  rbind (np.zeros n) (fun sequence =>
  rbind (np.setitem sequence 0 v) (fun sequence =>
  for_each (range (n - 1)) body sequence)).

(** The loop of [piecewise_constant_decay] over the extended boundaries. *)
Definition pieces (boundaries : np.ndarray) (values : list Q)
    (sequence : list f64) : result (list f64) :=
  for_each (range (Z.of_nat (length values)))
    (fun sequence value =>
       rbind (np.index_at boundaries (value + 1)) (fun hi =>
       rbind (np.index_at boundaries value) (fun lo =>
       match values !! Z.to_nat value with
       | None => Raise IndexError
       | Some v =>
           rbind (np.full (hi - lo) (float64 v)) (fun piece =>
           np.setslice sequence lo hi piece)
       end)))
    sequence.

(** The instance [Schedule(n)] builds, for an [n] the constructor accepts. *)
Definition generator (n : Z) : self :=
  match Schedule.__init__ n with
  | Ok s => s
  | Raise _ => {| n_steps := n; steps := [] |}
  end.

(** A coarse stand-in for the C library, to run the model on examples:
    the cosine by its Taylor polynomial of degree two, and no result for
    [pow] at an exponent that is not an integer. *)
Definition coarse_libm : Libm := {|
  libm_cos := fun x => (1 - x * x / 2)%Q;
  libm_pow := fun _ _ => NotFinite
|}.

(** No power [decay ** i] that [geometric_decay] computes on [n] steps
    overflows. *)
Definition pow_fits (decay : Q) (n : Z) : bool :=
  forallb (fun i => negb (overflows (decay ^ i))) (range (n - 1)).

(** The calls that are known to return: one value per piece and boundaries
    that cut [0, n] into consecutive pieces, a nonzero [i_drop], and powers
    of [decay] within the float range. *)
Definition admissible (n : Z) (c : call) : bool :=
  match c with
  | Shared (PiecewiseConstantDecay boundaries values) =>
      Nat.eqb (length values) (S (length boundaries)) && partitions boundaries n
  | StepDecay _ _ i_drop => negb (i_drop =? 0)
  | GeometricDecay _ decay _ => pow_fits decay n
  | _ => true
  end.

(** The boundary array of [piecewise_constant_decay] for a non-empty list of
    boundaries: [[0] + boundaries + [n_steps]]. *)
Definition extended (boundaries : list Z) (n : Z) : list Z :=
  0 :: boundaries ++ [n].

(** An integer that fits numpy's int64 together with its difference from
    another such integer. *)
Definition small_int (z : Z) : bool := (- 2 ^ 62 <=? z) && (z <? 2 ^ 62).

(** ** binary64

    The operations of IEEE binary64, for the claims that are about
    rounding: [np.linspace] again, on the machine's floats. *)

Module b64.

(** A Python [int] below [2^53] as a float. *)
Definition of_Z (z : Z) : float := PrimFloat.of_uint63 (Uint63.of_Z z).


(** [np.linspace(start, stop, num)] for [num >= 0], as [np.linspace]
    above, each operation rounded. *)
Definition linspace (start stop : float) (num : Z) : list float :=
  let div := num - 1 in
  let delta := PrimFloat.sub stop start in
  let y := of_Z <$> range num in
  let y :=
    if 0 <? div then
      let step := PrimFloat.div delta (of_Z div) in
      if PrimFloat.eqb step PrimFloat.zero
      then (fun v => PrimFloat.mul (PrimFloat.div v (of_Z div)) delta) <$> y
      else (fun v => PrimFloat.mul v step) <$> y
    else (fun v => PrimFloat.mul v delta) <$> y in
  let y := (fun v => PrimFloat.add v start) <$> y in
  if 1 <? num then <[Nat.pred (length y) := stop]> y else y.

(** [Schedule(n).steps] in binary64. *)
Definition steps (n : Z) : list float := linspace (of_Z 0) (of_Z n) n.

End b64.

(** * Properties *)

(** ** Ranges and loops *)

Lemma length_range (n : Z) : length (range n) = Z.to_nat n.
Proof. unfold range. by rewrite length_fmap, length_seq. Qed.

Lemma lookup_range (n : Z) (i : nat) :
  (i < Z.to_nat n)%nat -> range n !! i = Some (Z.of_nat i).
Proof.
  intros Hi. unfold range. rewrite list_lookup_fmap, lookup_seq_lt by done.
  reflexivity.
Qed.

(** ** Rationals in lowest terms *)

Lemma Qeq_bool_false (p q : Q) : ~ (p == q)%Q -> Qeq_bool p q = false.
Proof.
  intros Hne. destruct (Qeq_bool p q) eqn:E; [|done].
  apply Qeq_bool_iff in E. contradiction.
Qed.

Lemma Qeq_bool_true (p q : Q) : (p == q)%Q -> Qeq_bool p q = true.
Proof. apply Qeq_bool_iff. Qed.

Lemma Qfloor_unique (q : Q) (k : Z) :
  (inject_Z k <= q)%Q -> (q < inject_Z (k + 1))%Q -> Qfloor q = k.
Proof.
  intros Hlo Hhi.
  pose proof (Qfloor_le q) as Hfl. pose proof (Qlt_floor q) as Hlt.
  assert (inject_Z (Qfloor q) < inject_Z (k + 1))%Q as H1 by (eapply Qle_lt_trans; eauto).
  assert (inject_Z k < inject_Z (Qfloor q + 1))%Q as H2 by (eapply Qle_lt_trans; eauto).
  rewrite <- Zlt_Qlt in H1, H2. lia.
Qed.

Lemma inject_Z_pos (n : Z) : 0 < n -> (0 < inject_Z n)%Q.
Proof. intros Hn. unfold Qlt. simpl. lia. Qed.

Lemma inject_Z_nonneg (n : Z) : 0 <= n -> (0 <= inject_Z n)%Q.
Proof. intros Hn. unfold Qle. simpl. lia. Qed.

Lemma inject_Z_nonzero (n : Z) : n <> 0 -> ~ (inject_Z n == 0)%Q.
Proof. intros Hn. unfold Qeq. simpl. lia. Qed.

(** ** The base array *)

Lemma linspace_step_nonzero (n : Z) :
  2 <= n -> Qeq_bool ((inject_Z n - 0) / inject_Z (n - 1)) 0 = false.
Proof.
  intros Hn. apply Qeq_bool_false. intros E.
  apply (inject_Z_nonzero n); [lia|].
  assert (~ (inject_Z (n - 1) == 0)%Q) as Hd by (apply inject_Z_nonzero; lia).
  assert (inject_Z n ==
          (inject_Z n - 0) / inject_Z (n - 1) * inject_Z (n - 1))%Q as E'
    by (field; exact Hd).
  rewrite E', E. ring.
Qed.

Lemma linspace_many (n : Z) :
  2 <= n ->
  np.linspace 0 (inject_Z n) n =
    Ok (float64 <$>
          np.set_last
            ((fun v => v + 0)%Q <$>
               ((fun v => v * ((inject_Z n - 0) / inject_Z (n - 1)))%Q <$>
                  np.arange n))
            (inject_Z n)).
Proof.
  intros Hn. unfold np.linspace.
  replace (n <? 0) with false by lia.
  replace (0 <? n - 1) with true by lia.
  replace (1 <? n) with true by lia.
  cbv zeta. by rewrite linspace_step_nonzero.
Qed.

Lemma Qred_inject_Z (n : Z) : Qred (inject_Z n) = inject_Z n.
Proof. apply Qred_identity. simpl. apply Z.gcd_1_r. Qed.


Lemma lookup_arange (n : Z) (i : nat) :
  (i < Z.to_nat n)%nat -> np.arange n !! i = Some (inject_Z (Z.of_nat i)).
Proof.
  intros Hi. unfold np.arange. by rewrite list_lookup_fmap, lookup_range.
Qed.

Lemma length_arange (n : Z) : length (np.arange n) = Z.to_nat n.
Proof. unfold np.arange. by rewrite length_fmap, length_range. Qed.

(** The samples of [np.linspace(0, n, n)] for [n >= 2]. *)
Lemma linspace_lookup (n : Z) (st : list f64) (i : nat) :
  2 <= n -> np.linspace 0 (inject_Z n) n = Ok st -> (i < Z.to_nat n)%nat ->
  exists q, st !! i = Some (float64 q) /\
    (q == inject_Z (Z.of_nat i) * inject_Z n / inject_Z (n - 1))%Q.
Proof.
  intros Hn Hst Hi. rewrite linspace_many in Hst by done.
  injection Hst as <-. unfold np.set_last.
  rewrite !length_fmap, length_arange.
  assert (~ (inject_Z (n - 1) == 0)%Q) as Hd by (apply inject_Z_nonzero; lia).
  destruct (decide (i = Nat.pred (Z.to_nat n))) as [->|Hne].
  - exists (inject_Z n). split.
    + rewrite list_lookup_fmap, list_lookup_insert_eq; [done|].
      rewrite !length_fmap, length_arange. lia.
    + replace (Z.of_nat (Nat.pred (Z.to_nat n))) with (n - 1) by lia.
      field. exact Hd.
  - eexists. split.
    + rewrite list_lookup_fmap, list_lookup_insert_ne by done.
      rewrite !list_lookup_fmap, lookup_arange by done. reflexivity.
    + cbv beta. field. exact Hd.
Qed.

Lemma length_linspace (n : Z) (st : list f64) :
  np.linspace 0 (inject_Z n) n = Ok st -> length st = Z.to_nat n.
Proof.
  unfold np.linspace. destruct (n <? 0) eqn:E; [done|]. cbv zeta.
  intros [= <-].
  assert (forall y : list Q, length (np.set_last y (inject_Z n)) = length y) as Hl
    by (intros y; apply length_insert).
  rewrite length_fmap.
  destruct (1 <? n); rewrite ?Hl, length_fmap;
    destruct (0 <? n - 1); [destruct (Qeq_bool _ _)| |destruct (Qeq_bool _ _)|];
    by rewrite length_fmap, length_arange.
Qed.



Lemma linspace_returns (n : Z) :
  0 <= n -> exists st, np.linspace 0 (inject_Z n) n = Ok st.
Proof.
  intros Hn. unfold np.linspace. replace (n <? 0) with false by lia.
  cbv zeta. eauto.
Qed.

Lemma init_inv (n : Z) (s : self) :
  Schedule.__init__ n = Ok s ->
  n_steps s = n /\ np.linspace 0 (inject_Z n) n = Ok (steps s).
Proof.
  unfold Schedule.__init__. destruct (np.linspace _ _ _); [|done].
  simpl. by intros [= <-].
Qed.



(** ** Calls do not change the generator *)

Lemma preserves_ret {A} (a : A) : preserves_state (ret a).
Proof. by intros s. Qed.

Lemma preserves_raise {A} (e : exn) : preserves_state (@raise A e).
Proof. by intros s. Qed.

Lemma preserves_lift {A} (r : result A) : preserves_state (lift r).
Proof. by intros s. Qed.

Lemma preserves_self_n_steps : preserves_state self_n_steps.
Proof. by intros s. Qed.

Lemma preserves_self_steps : preserves_state self_steps.
Proof. by intros s. Qed.

Lemma preserves_bind {A B} (m : M A) (k : A -> M B) :
  preserves_state m -> (forall a, preserves_state (k a)) ->
  preserves_state (bind m k).
Proof.
  intros Hm Hk s. unfold bind. specialize (Hm s).
  destruct (m s) as [[a|e] s']; simpl in *; subst; [apply Hk|done].
Qed.

Create HintDb frame.
#[local] Hint Resolve preserves_ret preserves_raise preserves_lift
  preserves_self_n_steps preserves_self_steps : frame.

Ltac frame :=
  repeat first
    [ apply preserves_bind; [solve [auto with frame]|intros ?]
    | match goal with |- preserves_state (if ?b then _ else _) => destruct b end
    | solve [auto with frame] ].

Section frame.
Context `{Libm}.

Lemma preserves_shared (c : shared_call) :
  preserves_state (Schedule_invoke_shared c).
Proof.
  destruct c; simpl;
    unfold Schedule.exponential_decay, Schedule.cosine_decay,
      Schedule.inverse_time_decay, Schedule.polynomial_decay,
      Schedule.piecewise_constant_decay, Schedule.constant; frame.
Qed.

Lemma preserves_invoke (c : call) : preserves_state (Schedule_invoke c).
Proof.
  destruct c as [c| | | |]; simpl; [apply preserves_shared|..];
    unfold Schedule.geometric_decay, Schedule.arithmetic_decay,
      Schedule.time_decay, Schedule.step_decay; frame.
Qed.

(** C8: a call of any method, on any instance, leaves [n_steps] and [steps]
    as they were, also when it raises, and the same call made again gives
    the same outcome. *)
Theorem C8_state_unchanged (s : self) (c : call) :
  state_after (Schedule_invoke c) s = s /\
  (forall e, outcome (Schedule_invoke c) s = Raise e ->
     n_steps (state_after (Schedule_invoke c) s) = n_steps s /\
     steps (state_after (Schedule_invoke c) s) = steps s) /\
  outcome (Schedule_invoke c) (state_after (Schedule_invoke c) s)
    = outcome (Schedule_invoke c) s.
Proof.
  assert (state_after (Schedule_invoke c) s = s) as E
    by apply preserves_invoke.
  rewrite E. auto.
Qed.

(** C2: on instances built with the same [n_steps >= 1], each of the six
    methods of both classes gives the same outcome, a sequence or an
    exception, and leaves the same state. *)
Theorem C2_classes_agree (n : Z) (c : shared_call) (s : self) :
  1 <= n -> Schedule.__init__ n = Ok s ->
  Schedules.__init__ n = Ok s /\
  Schedules_invoke c s = Schedule_invoke_shared c s.
Proof. intros _ Hs. split; [exact Hs|]. by destruct c. Qed.

End frame.

(** ** Loops that fill an array *)

Lemma for_each_seq_inv {A} (body : A -> Z -> result A) (P : nat -> A -> Prop)
    (k a : nat) (acc : A) :
  P a acc ->
  (forall i x, (a <= i < a + k)%nat -> P i x ->
     exists x', body x (Z.of_nat i) = Ok x' /\ P (S i) x') ->
  exists r, for_each (Z.of_nat <$> seq a k) body acc = Ok r /\ P (a + k)%nat r.
Proof.
  revert a acc. induction k as [|k IH]; intros a acc Hacc Hstep.
  - exists acc. rewrite Nat.add_0_r. by split.
  - destruct (Hstep a acc) as (x' & Hx' & HP); [lia|done|].
    destruct (IH (S a) x') as (r & Hr & HPr); [done| |].
    + intros i x Hi. apply Hstep. lia.
    + exists r. simpl. rewrite Hx'. simpl. split; [exact Hr|].
      by replace (a + S k)%nat with (S a + k)%nat by lia.
Qed.

Lemma for_each_range_inv {A} (body : A -> Z -> result A) (P : nat -> A -> Prop)
    (m : Z) (acc : A) :
  P 0%nat acc ->
  (forall i x, (i < Z.to_nat m)%nat -> P i x ->
     exists x', body x (Z.of_nat i) = Ok x' /\ P (S i) x') ->
  exists r, for_each (range m) body acc = Ok r /\ P (Z.to_nat m) r.
Proof.
  intros H0 Hstep. unfold range.
  apply (for_each_seq_inv body P (Z.to_nat m) 0 acc H0).
  intros i x Hi. apply Hstep. lia.
Qed.

Lemma position_in_range (len i : Z) :
  0 <= i < len -> np.position len i = Some (Z.to_nat i).
Proof.
  intros Hi. unfold np.position.
  replace (0 <=? i) with true by lia. by replace (i <? len) with true by lia.
Qed.

Lemma setitem_in_range (a : list f64) (i : Z) (v : f64) :
  0 <= i < Z.of_nat (length a) ->
  np.setitem a i v = Ok (<[Z.to_nat i := v]> a).
Proof. intros Hi. unfold np.setitem. by rewrite position_in_range. Qed.

Lemma getitem_in_range (a : list f64) (i : Z) (x : f64) :
  0 <= i -> a !! Z.to_nat i = Some x -> np.getitem a i = Ok x.
Proof.
  intros Hi Hx. unfold np.getitem.
  apply lookup_lt_Some in Hx as Hlt.
  rewrite position_in_range by lia. by rewrite Hx.
Qed.

Lemma zeros_nonneg (n : Z) :
  0 <= n -> np.zeros n = Ok (replicate (Z.to_nat n) (float64 0)).
Proof.
  intros Hn. unfold np.zeros, np.full. by replace (n <? 0) with false by lia.
Qed.

(** Element [i + 1] is written from the elements up to [i]: the result
    satisfies [R] between each element and the next. *)
Lemma recurrence_spec (n : Z) (v : f64)
    (body : list f64 -> Z -> result (list f64))
    (g : f64 -> nat -> f64) :
  1 <= n ->
  (forall (sequence : list f64) (i : nat) (x : f64),
      Z.of_nat (length sequence) = n -> Z.of_nat i < n - 1 ->
      sequence !! i = Some x ->
      body sequence (Z.of_nat i) = Ok (<[S i := g x i]> sequence)) ->
  exists out,
    recurrence n v body = Ok out /\
    Z.of_nat (length out) = n /\
    out !! 0%nat = Some v /\
    (forall i : nat, Z.of_nat i < n - 1 ->
       exists x, out !! i = Some x /\ out !! S i = Some (g x i)).
Proof.
  intros Hn Hbody. unfold recurrence.
  rewrite zeros_nonneg by lia. simpl.
  rewrite setitem_in_range by (rewrite length_replicate; lia). simpl.
  set (start := <[Z.to_nat 0 := v]> (replicate (Z.to_nat n) (float64 0))).
  assert (length start = Z.to_nat n) as Hlen0
    by (unfold start; by rewrite length_insert, length_replicate).
  destruct (for_each_range_inv body
    (fun k sequence =>
       Z.of_nat (length sequence) = n /\
       sequence !! 0%nat = Some v /\
       forall i : nat, (i < k)%nat ->
         exists x, sequence !! i = Some x /\ sequence !! S i = Some (g x i))
    (n - 1) start) as (out & Hout & Hlen & H0 & Hrec).
  - split; [lia|]. split; [|intros i Hi; lia].
    unfold start. apply list_lookup_insert_eq. rewrite length_replicate. lia.
  - intros k sequence Hk (Hlen & H0 & Hrec).
    destruct (lookup_lt_is_Some_2 sequence k) as [x Hx]; [lia|].
    exists (<[S k := g x k]> sequence). split; [apply Hbody; [done|lia|done]|].
    split; [by rewrite length_insert|]. split.
    + by rewrite list_lookup_insert_ne.
    + intros i Hi. destruct (decide (i = k)) as [->|Hne].
      * exists x. split; [by rewrite list_lookup_insert_ne by lia|].
        apply list_lookup_insert_eq. lia.
      * destruct (Hrec i) as (y & Hy & Hy'); [lia|].
        exists y. by rewrite !list_lookup_insert_ne by lia.
  - exists out. split; [done|]. split; [done|]. split; [done|].
    intros i Hi. apply Hrec. lia.
Qed.

Lemma element_float64 (l : list f64) (i : nat) (p q : Q) :
  l !! i = Some (float64 p) -> (p == q)%Q -> element l i q.
Proof.
  intros Hl E. exists (Qred p). split; [done|]. by rewrite Qred_correct.
Qed.

Section recurrences.
Context `{Libm}.

Lemma geometric_decay_loop (a d m : Q) (s : self) :
  outcome (Schedule.geometric_decay a d m) s =
  recurrence (n_steps s) (float64 a)
    (fun sequence i =>
       rbind (float_pow d i) (fun power =>
       np.setitem sequence (i + 1)
         (np.maximum (float64 (a * power)) (float64 m)))).
Proof.
  unfold outcome, Schedule.geometric_decay, recurrence, bind, lift,
    self_n_steps. simpl.
  destruct (np.zeros (n_steps s)) as [z|]; [simpl|done].
  by destruct (np.setitem z 0 (float64 a)).
Qed.

Lemma arithmetic_decay_loop (a d m : Q) (s : self) :
  outcome (Schedule.arithmetic_decay a d m) s =
  recurrence (n_steps s) (float64 a)
    (fun sequence i =>
       np.setitem sequence (i + 1)
         (np.maximum (float64 (a - d * inject_Z i)) (float64 m))).
Proof.
  unfold outcome, Schedule.arithmetic_decay, recurrence, bind, lift,
    self_n_steps. simpl.
  destruct (np.zeros (n_steps s)) as [z|]; [simpl|done].
  by destruct (np.setitem z 0 (float64 a)).
Qed.

Lemma time_decay_loop (a r : Q) (s : self) :
  outcome (Schedule.time_decay a r) s =
  recurrence (n_steps s) (float64 a)
    (fun sequence i =>
       rbind (np.getitem sequence i) (fun prev =>
       np.setitem sequence (i + 1)
         (np.divide prev (float64 (1 + r * inject_Z i))))).
Proof.
  unfold outcome, Schedule.time_decay, recurrence, bind, lift,
    self_n_steps. simpl.
  destruct (np.zeros (n_steps s)) as [z|]; [simpl|done].
  by destruct (np.setitem z 0 (float64 a)).
Qed.

Lemma step_decay_loop (a d : Q) (k : Z) (s : self) :
  outcome (Schedule.step_decay a d k) s =
  recurrence (n_steps s) (float64 a)
    (fun sequence i =>
       rbind (Schedule.truediv (1 + i) k) (fun q =>
       np.setitem sequence (i + 1)
         (np.multiply (float64 a)
            (np.power (float64 d) (np.floor (float64 q)))))).
Proof.
  unfold outcome, Schedule.step_decay, recurrence, bind, lift,
    self_n_steps. simpl.
  destruct (np.zeros (n_steps s)) as [z|]; [simpl|done].
  by destruct (np.setitem z 0 (float64 a)).
Qed.

Lemma setitem_next (sequence : list f64) (n : Z) (i : nat) (v : f64) :
  Z.of_nat (length sequence) = n -> Z.of_nat i < n - 1 ->
  np.setitem sequence (Z.of_nat i + 1) v = Ok (<[S i := v]> sequence).
Proof.
  intros Hlen Hi. rewrite setitem_in_range by lia.
  by replace (Z.to_nat (Z.of_nat i + 1)) with (S i) by lia.
Qed.

Lemma pow_fits_at (decay : Q) (n : Z) (i : nat) :
  pow_fits decay n = true -> Z.of_nat i < n - 1 ->
  float_pow decay (Z.of_nat i) = Ok (decay ^ Z.of_nat i)%Q.
Proof.
  intros Hfits Hi. unfold pow_fits in Hfits.
  rewrite forallb_forall in Hfits.
  specialize (Hfits (Z.of_nat i)). unfold float_pow.
  destruct (overflows (decay ^ Z.of_nat i)); [|done].
  exfalso. assert (negb true = true); [|done].
  apply Hfits. apply list_elem_of_In, (list_elem_of_lookup_2 _ i).
  apply lookup_range. lia.
Qed.

(** The loop of [geometric_decay] stops with OverflowError at the first
    power that overflows. *)
Lemma geometric_overflow (a d m : Q) (n : Z) (k start : nat)
    (sequence : list f64) :
  Z.of_nat (length sequence) = n -> Z.of_nat (start + k) <= n - 1 ->
  forallb (fun i => negb (overflows (d ^ i))) (Z.of_nat <$> seq start k)
    = false ->
  for_each (Z.of_nat <$> seq start k)
    (fun sequence i =>
       rbind (float_pow d i) (fun power =>
       np.setitem sequence (i + 1)
         (np.maximum (float64 (a * power)) (float64 m))))
    sequence = Raise OverflowError.
Proof.
  revert start sequence.
  induction k as [|k IH]; intros start sequence Hlen Hk; [done|].
  cbn [seq fmap list_fmap forallb for_each]. unfold float_pow at 1.
  destruct (overflows (d ^ Z.of_nat start)); [done|].
  cbn [negb andb rbind]. intros Hrest.
  rewrite (setitem_next _ n) by lia. cbn [rbind].
  apply IH; [by rewrite length_insert|lia|done].
Qed.

(** C5, as the code has it: on a generator of [n_steps >= 1],
    [geometric_decay] returns when no power [decay ** i], [i < n_steps - 1],
    overflows the float range, and raises OverflowError otherwise.  The
    sequence it returns has [n_steps] elements, the first [initial] and
    element [i >= 1] [max(initial * decay^(i-1), min_value)];
    [geometric_decay(10, 0.5, 1)] on four steps is [[10, 10, 5, 2.5]]. *)
Theorem C5_geometric_decay (n : Z) (s : self) (initial decay min_value : Q) :
  1 <= n -> Schedule.__init__ n = Ok s ->
  (pow_fits decay n = true ->
   exists sequence : list f64,
     outcome (Schedule.geometric_decay initial decay min_value) s
       = Ok sequence /\
     Z.of_nat (length sequence) = n /\
     element sequence 0 initial /\
     (forall i : nat, 1 <= Z.of_nat i < n ->
        element sequence i
          (Qmax (initial * decay ^ (Z.of_nat i - 1)) min_value)) /\
     (n = 4 -> initial = 10%Q -> decay = (1 # 2)%Q -> min_value = 1%Q ->
      sequence = [Fin 10; Fin 10; Fin 5; Fin (5 # 2)])) /\
  (pow_fits decay n = false ->
   outcome (Schedule.geometric_decay initial decay min_value) s
     = Raise OverflowError).
Proof.
  intros Hn Hs. destruct (init_inv n s Hs) as [Hns _].
  rewrite geometric_decay_loop, Hns. split.
  - intros Hfits.
    destruct (recurrence_spec n (float64 initial)
      (fun sequence i =>
         rbind (float_pow decay i) (fun power =>
         np.setitem sequence (i + 1)
           (np.maximum (float64 (initial * power)) (float64 min_value))))
      (fun _ i =>
         np.maximum (float64 (initial * decay ^ Z.of_nat i))
           (float64 min_value)))
      as (out & Hout & Hlen & H0 & Hrec); [done| |].
    { intros sequence i x Hlen Hi _.
      rewrite (pow_fits_at decay n i Hfits Hi). cbn [rbind].
      by apply (setitem_next _ n). }
    exists out. split; [done|]. split; [done|]. split; [|split].
    + by apply (element_float64 _ _ initial).
    + intros [|i] Hi; [lia|].
      destruct (Hrec i) as (x & _ & Hx); [lia|].
      apply (element_float64 _ _ _ _ Hx).
      replace (Z.of_nat (S i) - 1) with (Z.of_nat i) by lia.
      by rewrite !Qred_correct.
    + intros -> -> -> ->. vm_compute in Hout. by injection Hout as <-.
  - intros Hover. unfold recurrence.
    rewrite zeros_nonneg by lia. cbn [rbind].
    rewrite setitem_in_range by (rewrite length_replicate; lia). cbn [rbind].
    apply (geometric_overflow initial decay min_value n).
    + rewrite length_insert, length_replicate. lia.
    + lia.
    + exact Hover.
Qed.

Lemma floor_float64 (q : Q) :
  np.floor (float64 q) = Fin (inject_Z (Qfloor q)).
Proof.
  assert (Qfloor (Qred q) = Qfloor q) as E by (by rewrite Qred_correct).
  unfold np.floor, float64. by rewrite Qred_inject_Z, E.
Qed.

Lemma is_integer_inject_Z (k : Z) : is_integer (inject_Z k) = true.
Proof. unfold is_integer. rewrite Qfloor_Z. apply Qeq_bool_refl. Qed.

(** [pow] at an integer exponent. *)
Lemma power_integer (b : Q) (k : Z) :
  np.power (float64 b) (Fin (inject_Z k)) =
  if (k <? 0) && Qeq_bool b 0 then NotFinite else float64 (Qred b ^ k).
Proof.
  assert (Qeq_bool (Qred b) 0 = Qeq_bool b 0) as E
    by (by rewrite Qred_correct).
  unfold np.power, float64. by rewrite is_integer_inject_Z, Qfloor_Z, E.
Qed.

(** C6: [step_decay] with a nonzero [i_drop] on a generator of
    [n_steps >= 1] returns [n_steps] elements, the first [initial] and
    element [i >= 1] [initial * drop^floor(i / i_drop)] (not finite where
    that is a negative power of zero); [step_decay(1.0, 0.5, 2)] on five
    steps is [[1.0, 1.0, 0.5, 0.5, 0.25]]. *)
Theorem C6_step_decay (n : Z) (s : self) (initial drop : Q) (i_drop : Z) :
  1 <= n -> i_drop <> 0 -> Schedule.__init__ n = Ok s ->
  exists sequence : list f64,
    outcome (Schedule.step_decay initial drop i_drop) s = Ok sequence /\
    Z.of_nat (length sequence) = n /\
    element sequence 0 initial /\
    (forall i : nat, 1 <= Z.of_nat i < n ->
       let k := Qfloor (inject_Z (Z.of_nat i) / inject_Z i_drop) in
       if (k <? 0) && Qeq_bool drop 0
       then sequence !! i = Some NotFinite
       else element sequence i (initial * drop ^ k)) /\
    (n = 5 -> initial = 1%Q -> drop = (1 # 2)%Q -> i_drop = 2 ->
     sequence = [Fin 1; Fin 1; Fin (1 # 2); Fin (1 # 2); Fin (1 # 4)]).
Proof.
  intros Hn Hdrop Hs. destruct (init_inv n s Hs) as [Hns _].
  rewrite step_decay_loop, Hns.
  destruct (recurrence_spec n (float64 initial)
    (fun sequence i =>
       rbind (Schedule.truediv (1 + i) i_drop) (fun q =>
       np.setitem sequence (i + 1)
         (np.multiply (float64 initial)
            (np.power (float64 drop) (np.floor (float64 q))))))
    (fun _ i =>
       np.multiply (float64 initial)
         (np.power (float64 drop)
            (np.floor (float64 (inject_Z (1 + Z.of_nat i) / inject_Z i_drop))))))
    as (out & Hout & Hlen & H0 & Hrec); [done| |].
  { intros sequence i x Hlen Hi _. unfold Schedule.truediv.
    replace (i_drop =? 0) with false by lia. simpl.
    by apply (setitem_next _ n). }
  exists out. split; [done|]. split; [done|]. split; [|split].
  - by apply (element_float64 _ _ initial).
  - intros [|i] Hi; [lia|]. cbv zeta.
    destruct (Hrec i) as (x & _ & Hx); [lia|].
    rewrite floor_float64, power_integer in Hx.
    replace (1 + Z.of_nat i) with (Z.of_nat (S i)) in Hx by lia.
    destruct (_ && _); [done|].
    apply (element_float64 _ _ _ _ Hx). by rewrite !Qred_correct.
  - intros -> -> -> ->. vm_compute in Hout. by injection Hout as <-.
Qed.

(** Division by a number that is not zero. *)
Lemma divide_finite (p d : Q) :
  ~ (d == 0)%Q ->
  exists q, np.divide (Fin p) (float64 d) = Fin q /\ (q == p / d)%Q.
Proof.
  intros Hd. unfold np.divide, float64.
  rewrite Qeq_bool_false by (by rewrite Qred_correct).
  eexists. split; [done|]. by rewrite !Qred_correct.
Qed.

(** C7: [time_decay] on a generator of [n_steps >= 1] returns [n_steps]
    elements, the first [initial], and element [i >= 1] is element [i - 1]
    of the same sequence divided by [1 + rate * (i - 1)]. *)
Theorem C7_time_decay (n : Z) (s : self) (initial rate : Q) :
  1 <= n -> Schedule.__init__ n = Ok s ->
  exists sequence : list f64,
    outcome (Schedule.time_decay initial rate) s = Ok sequence /\
    Z.of_nat (length sequence) = n /\
    element sequence 0 initial /\
    (forall i : nat, 1 <= Z.of_nat i < n ->
       exists previous : f64,
         sequence !! Nat.pred i = Some previous /\
         sequence !! i =
           Some (np.divide previous
                   (float64 (1 + rate * inject_Z (Z.of_nat i - 1)))) /\
         (forall p : Q,
            previous = Fin p ->
            ~ (1 + rate * inject_Z (Z.of_nat i - 1) == 0)%Q ->
            element sequence i
              (p / (1 + rate * inject_Z (Z.of_nat i - 1))))).
Proof.
  intros Hn Hs. destruct (init_inv n s Hs) as [Hns _].
  rewrite time_decay_loop, Hns.
  destruct (recurrence_spec n (float64 initial)
    (fun sequence i =>
       rbind (np.getitem sequence i) (fun prev =>
       np.setitem sequence (i + 1)
         (np.divide prev (float64 (1 + rate * inject_Z i)))))
    (fun x i => np.divide x (float64 (1 + rate * inject_Z (Z.of_nat i)))))
    as (out & Hout & Hlen & H0 & Hrec); [done| |].
  { intros sequence i x Hlen Hi Hx.
    rewrite (getitem_in_range sequence (Z.of_nat i) x);
      [|lia|by rewrite Nat2Z.id].
    simpl. by apply (setitem_next _ n). }
  exists out. split; [done|]. split; [done|]. split.
  - by apply (element_float64 _ _ initial).
  - intros [|i] Hi; [lia|].
    destruct (Hrec i) as (x & Hx & Hx'); [lia|].
    replace (Z.of_nat (S i) - 1) with (Z.of_nat i) by lia.
    exists x. split; [done|]. split; [done|].
    intros p -> Hd. destruct (divide_finite p _ Hd) as (q & Eq & Hq).
    exists q. split; [by rewrite Hx', Eq|done].
Qed.

End recurrences.

(** ** The methods over the base array *)

Lemma lookup_fmap_Some {A B} (f : A -> B) (l : list A) (i : nat) (x : A) :
  l !! i = Some x -> (f <$> l) !! i = Some (f x).
Proof. intros Hx. by rewrite list_lookup_fmap, Hx. Qed.


Lemma length_steps (n : Z) (s : self) :
  0 <= n -> Schedule.__init__ n = Ok s -> Z.of_nat (length (steps s)) = n.
Proof.
  intros Hn Hs. destruct (init_inv n s Hs) as [_ Hst].
  rewrite (length_linspace _ _ Hst). lia.
Qed.

Lemma divide_by_int (q : Q) (n : Z) :
  n <> 0 -> np.divide (float64 q) (of_int n) = float64 (Qred q / Qred (inject_Z n)).
Proof.
  intros Hn. unfold np.divide, of_int, float64.
  rewrite Qeq_bool_false; [done|].
  rewrite Qred_correct. by apply inject_Z_nonzero.
Qed.

(** [floor(steps[i] / n_steps)] is 0 before the last element and 1 at it. *)
Lemma staircase_exponent (n : Z) (s : self) (i : nat) :
  2 <= n -> Schedule.__init__ n = Ok s -> Z.of_nat i < n ->
  exists x, steps s !! i = Some x /\
    np.floor (np.divide x (of_int n)) =
      Fin (inject_Z (if decide (Z.of_nat i = n - 1) then 1 else 0)).
Proof.
  intros Hn Hs Hi. destruct (init_inv n s Hs) as [_ Hst].
  destruct (linspace_lookup n (steps s) i) as (q & Hq & Eq); [lia|done|lia|].
  exists (float64 q). split; [done|].
  rewrite divide_by_int, floor_float64 by lia. do 2 f_equal.
  assert (0 < inject_Z (n - 1))%Q as Hd by (apply inject_Z_pos; lia).
  assert (~ (inject_Z (n - 1) == 0)%Q) as Hd0 by (apply inject_Z_nonzero; lia).
  assert (~ (inject_Z n == 0)%Q) as Hn0 by (apply inject_Z_nonzero; lia).
  assert (Qred q / Qred (inject_Z n) ==
          inject_Z (Z.of_nat i) / inject_Z (n - 1))%Q as E.
  { rewrite !Qred_correct, Eq. field. by split. }
  rewrite E. case_decide as Hlast.
  - rewrite Hlast. apply Qfloor_unique.
    + apply Qle_shift_div_l; [done|]. rewrite Qmult_1_l. apply Qle_refl.
    + apply Qlt_shift_div_r; [done|].
      rewrite <- inject_Z_mult, <- Zlt_Qlt. lia.
  - apply Qfloor_unique.
    + apply Qle_shift_div_l; [done|]. rewrite Qmult_0_l.
      apply inject_Z_nonneg. lia.
    + apply Qlt_shift_div_r; [done|].
      rewrite <- inject_Z_mult, <- Zlt_Qlt. lia.
Qed.

Section base_array_methods.
Context `{Libm}.

Lemma exponential_decay_staircase (initial rate : Q) (s : self) :
  outcome (Schedule.exponential_decay initial rate true) s =
  Ok ((fun x =>
         np.multiply (float64 initial)
           (np.power (float64 rate)
              (np.floor (np.divide x (of_int (n_steps s)))))) <$> steps s).
Proof. reflexivity. Qed.

(** C9: for [n_steps >= 2], [exponential_decay] with [staircase=True]
    returns [initial] at every element up to [n_steps - 2] and
    [initial * rate] at the last one: the exponent
    [floor(steps[i] / n_steps)] is 0 before the last element and 1 at it. *)
Theorem C9_staircase_exponential (n : Z) (s : self) (initial rate : Q) :
  2 <= n -> Schedule.__init__ n = Ok s ->
  exists sequence : list f64,
    outcome (Schedule.exponential_decay initial rate true) s = Ok sequence /\
    Z.of_nat (length sequence) = n /\
    (forall i : nat, Z.of_nat i <= n - 2 -> element sequence i initial) /\
    element sequence (Z.to_nat (n - 1)) (initial * rate) /\
    (forall (i : nat) (x : f64), steps s !! i = Some x ->
       np.floor (np.divide x (of_int n)) =
         Fin (inject_Z (if decide (Z.of_nat i = n - 1) then 1 else 0))).
Proof.
  intros Hn Hs. destruct (init_inv n s Hs) as [Hns _].
  pose proof (length_steps n s ltac:(lia) Hs) as Hlen.
  rewrite exponential_decay_staircase, Hns. eexists. split; [reflexivity|].
  split; [by rewrite length_fmap|].
  assert (forall i : nat, Z.of_nat i < n ->
    ((fun x => np.multiply (float64 initial)
        (np.power (float64 rate) (np.floor (np.divide x (of_int n)))))
       <$> steps s) !! i =
    Some (float64 (Qred initial *
            Qred (Qred rate ^ (if decide (Z.of_nat i = n - 1) then 1 else 0)))))
    as Hel.
  { intros i Hi. destruct (staircase_exponent n s i) as (x & Hx & Ex);
      [done..|].
    rewrite (lookup_fmap_Some _ _ _ _ Hx), Ex, power_integer.
    by case_decide. }
  split; [|split].
  - intros i Hi. apply (element_float64 _ _ _ _ (Hel i ltac:(lia))).
    rewrite decide_False by lia. rewrite !Qred_correct. simpl. ring.
  - apply (element_float64 _ _ _ _ (Hel (Z.to_nat (n - 1)) ltac:(lia))).
    rewrite decide_True by lia. rewrite !Qred_correct. simpl. ring.
  - intros i x Hx. apply lookup_lt_Some in Hx as Hi.
    destruct (staircase_exponent n s i) as (x' & Hx' & Ex); [done|done|lia|].
    rewrite Hx in Hx'. by injection Hx' as <-.
Qed.




Lemma polynomial_decay_cycle (initial end_value power : Q) (s : self) :
  outcome (Schedule.polynomial_decay initial end_value power true) s =
  Ok (zip_with
        (fun x h =>
           np.add
             (np.multiply (float64 (initial - end_value))
                (np.power (np.subtract (float64 1) (np.divide x h))
                   (float64 power)))
             (float64 end_value))
        (steps s) (Schedule.horizon (n_steps s) (steps s))).
Proof. reflexivity. Qed.


End base_array_methods.

(** ** Piecewise constant decay *)

Lemma for_each_preserves {A X} (body : A -> X -> result A) (P : A -> Prop)
    (xs : list X) (acc r : A) :
  (forall x i x', P x -> body x i = Ok x' -> P x') ->
  P acc -> for_each xs body acc = Ok r -> P r.
Proof.
  intros Hbody. revert acc. induction xs as [|i xs IH]; intros acc Hacc.
  - simpl. by intros [= <-].
  - simpl. destruct (body acc i) as [x'|] eqn:E; [|done]. simpl.
    apply IH. by apply (Hbody acc i).
Qed.

Lemma slice_bound_range (len k : Z) :
  0 <= len -> 0 <= np.slice_bound len k <= len.
Proof. intros Hlen. unfold np.slice_bound. destruct (k <? 0) eqn:E; lia. Qed.

Lemma length_setslice (a : list f64) (start stop : Z) (src r : list f64) :
  np.setslice a start stop src = Ok r -> length r = length a.
Proof.
  unfold np.setslice.
  pose proof (slice_bound_range (Z.of_nat (length a)) start ltac:(lia)) as Hlo.
  pose proof (slice_bound_range (Z.of_nat (length a)) stop ltac:(lia)) as Hhi.
  set (lo := np.slice_bound _ start) in *.
  set (hi := np.slice_bound _ stop) in *.
  assert (forall new : list f64, length new = Z.to_nat (hi - lo) ->
    length (take (Z.to_nat lo) a ++ new ++ drop (Z.to_nat lo + Z.to_nat (hi - lo)) a)
      = length a) as Hput.
  { intros new Hnew. rewrite !length_app, length_take, length_drop, Hnew. lia. }
  destruct (Nat.eqb (length src) (Z.to_nat (hi - lo))) eqn:E.
  - apply Nat.eqb_eq in E. intros [= <-]. by apply Hput.
  - destruct src as [|v [|]]; [done| |done].
    intros [= <-]. apply Hput. by rewrite length_replicate.
Qed.

Lemma setslice_exact (a : list f64) (lo hi : Z) (src : list f64) :
  0 <= lo <= hi -> hi <= Z.of_nat (length a) ->
  length src = Z.to_nat (hi - lo) ->
  np.setslice a lo hi src =
    Ok (take (Z.to_nat lo) a ++ src ++ drop (Z.to_nat hi) a).
Proof.
  intros Hlo Hhi Hsrc. unfold np.setslice, np.slice_bound.
  replace (lo <? 0) with false by lia. replace (hi <? 0) with false by lia.
  rewrite !Z.min_l by lia. rewrite Hsrc, Nat.eqb_refl.
  by replace (Z.to_nat lo + Z.to_nat (hi - lo))%nat with (Z.to_nat hi) by lia.
Qed.

Lemma index_at_int64s (l : list Z) (i : nat) (v : Z) :
  l !! i = Some v -> np.index_at (np.int64s l) (Z.of_nat i) = Ok v.
Proof.
  intros Hv. apply lookup_lt_Some in Hv as Hi. unfold np.index_at.
  rewrite position_in_range by lia. by rewrite Nat2Z.id, Hv.
Qed.

Lemma ascending_from_le (lo : Z) (bs : list Z) (n : Z) :
  ascending_from lo bs n = true -> lo <= n.
Proof.
  revert lo. induction bs as [|b bs IH]; intros lo; simpl.
  - lia.
  - intros [Hb Hbs]%andb_true_iff. apply IH in Hbs. lia.
Qed.

(** Consecutive entries of [[0] + boundaries + [n]] are in order and
    within [0, n]. *)
Lemma ascending_from_spec (lo : Z) (bs : list Z) (n : Z) (i : nat) (a b : Z) :
  ascending_from lo bs n = true ->
  (lo :: bs ++ [n]) !! i = Some a -> (lo :: bs ++ [n]) !! S i = Some b ->
  lo <= a /\ a <= b /\ b <= n.
Proof.
  revert lo i. induction bs as [|b0 bs IH]; intros lo i; simpl.
  - intros Hlo. destruct i as [|[|i]]; simpl; [|done..].
    intros [= <-] [= <-]. lia.
  - intros [Hb Hbs]%andb_true_iff. destruct i as [|i].
    + simpl. intros [= <-] [= <-]. apply ascending_from_le in Hbs. lia.
    + intros Ha Hb'. destruct (IH b0 i Hbs Ha Hb') as (? & ? & ?). lia.
Qed.

Lemma piecewise_arity_error (bs : list Z) (vs : list Q) (s : self) :
  length vs <> S (length bs) ->
  Schedule.piecewise_constant_decay bs vs s = (Raise ValueError, s).
Proof.
  intros Hne. unfold Schedule.piecewise_constant_decay.
  by replace (Z.of_nat (length bs) + 1 =? Z.of_nat (length vs)) with false by lia.
Qed.

Lemma piecewise_loop (bs : list Z) (vs : list Q) (s : self) :
  length vs = S (length bs) ->
  outcome (Schedule.piecewise_constant_decay bs vs) s =
  rbind (np.zeros (n_steps s))
    (pieces
       (np.append (np.append (np.int64s [0]) (np.of_list bs))
          (np.int64s [n_steps s]))
       vs).
Proof.
  intros Har. unfold outcome, Schedule.piecewise_constant_decay.
  replace (Z.of_nat (length bs) + 1 =? Z.of_nat (length vs)) with true by lia.
  unfold bind, lift, self_n_steps. simpl.
  by destruct (np.zeros (n_steps s)).
Qed.

(** A sequence that [piecewise_constant_decay] returns has [n_steps]
    elements. *)
Lemma piecewise_length (bs : list Z) (vs : list Q) (s : self)
    (sequence : list f64) :
  outcome (Schedule.piecewise_constant_decay bs vs) s = Ok sequence ->
  length sequence = Z.to_nat (n_steps s).
Proof.
  destruct (decide (length vs = S (length bs))) as [Har|Har].
  - rewrite piecewise_loop by done. unfold np.zeros, np.full.
    destruct (n_steps s <? 0); [done|]. simpl. unfold pieces.
    apply (for_each_preserves _
      (fun x => length x = Z.to_nat (n_steps s)));
      [|by rewrite length_replicate].
    intros x i x' Hx.
    destruct (np.index_at _ (i + 1)) as [hi|]; [simpl|done].
    destruct (np.index_at _ i) as [lo|]; [simpl|done].
    destruct (vs !! Z.to_nat i) as [v|]; [|done].
    destruct (np.full (hi - lo) (float64 v)) as [piece|]; [simpl|done].
    intros Hset. by rewrite (length_setslice _ _ _ _ _ Hset).
  - unfold outcome. by rewrite piecewise_arity_error.
Qed.

(** Without boundaries the boundary array is one of floats, which numpy
    refuses as lengths and slice bounds. *)
Lemma piecewise_no_boundaries (v : Q) (s : self) :
  0 <= n_steps s ->
  outcome (Schedule.piecewise_constant_decay [] [v]) s = Raise TypeError.
Proof.
  intros Hn. rewrite piecewise_loop by done.
  by rewrite zeros_nonneg by done.
Qed.

(** With one value per piece and boundaries that cut [0, n_steps] into
    consecutive pieces, [piecewise_constant_decay] returns. *)
Lemma piecewise_returns (bs : list Z) (vs : list Q) (s : self) :
  0 <= n_steps s -> length vs = S (length bs) ->
  partitions bs (n_steps s) = true ->
  exists sequence,
    outcome (Schedule.piecewise_constant_decay bs vs) s = Ok sequence /\
    length sequence = Z.to_nat (n_steps s).
Proof.
  intros Hn Har Hpart. rewrite piecewise_loop by done.
  destruct bs as [|b0 bs]; [done|]. simpl in Hpart.
  change (np.append (np.append (np.int64s [0]) (np.of_list (b0 :: bs)))
            (np.int64s [n_steps s]))
    with (np.int64s (0 :: (b0 :: bs) ++ [n_steps s])).
  set (B := 0 :: (b0 :: bs) ++ [n_steps s]).
  rewrite zeros_nonneg by done. cbn [rbind].
  assert (length B = S (length vs)) as HB
    by (unfold B; simpl; rewrite length_app; simpl in *; lia).
  unfold pieces.
  apply (for_each_range_inv _
    (fun _ sequence => length sequence = Z.to_nat (n_steps s))).
  - by rewrite length_replicate.
  - intros i x Hi Hx. rewrite Nat2Z.id in Hi.
    destruct (lookup_lt_is_Some_2 B i) as [lo Hlo]; [lia|].
    destruct (lookup_lt_is_Some_2 B (S i)) as [hi Hhi]; [lia|].
    destruct (lookup_lt_is_Some_2 vs i) as [v Hv]; [lia|].
    destruct (ascending_from_spec 0 (b0 :: bs) (n_steps s) i lo hi)
      as (H0 & Hle & Hhn); [done..|].
    cbv beta. replace (Z.of_nat i + 1) with (Z.of_nat (S i)) by lia.
    rewrite (index_at_int64s B (S i) hi Hhi). cbn [rbind].
    rewrite (index_at_int64s B i lo Hlo). cbn [rbind].
    rewrite Nat2Z.id, Hv. unfold np.full.
    replace (hi - lo <? 0) with false by lia. cbn [rbind].
    rewrite setslice_exact; [|lia|lia|by rewrite length_replicate].
    eexists. split; [reflexivity|].
    rewrite !length_app, length_take, length_drop, length_replicate. lia.
Qed.

Section piecewise.
Context `{Libm}.

(** C3, as the code has it: [piecewise_constant_decay] raises ValueError
    whenever [len(values) != len(boundaries) + 1]; for boundaries
    [0 <= b1 <= ... <= bk <= n_steps] it raises ValueError exactly then;
    a call that raises leaves the generator unchanged;
    [boundaries=[2,4], values=[1,2]] raises, and
    [boundaries=[2,4], values=[1,2,3]] on six steps gives
    [[1,1,2,2,3,3]]. *)
Theorem C3_piecewise_validation (n : Z) (s : self)
    (boundaries : list Z) (values : list Q) :
  1 <= n -> Schedule.__init__ n = Ok s ->
  let call := Schedule.piecewise_constant_decay boundaries values in
  (length values <> S (length boundaries) ->
     outcome call s = Raise ValueError) /\
  (ascending_from 0 boundaries n = true ->
     (outcome call s = Raise ValueError <->
      length values <> S (length boundaries))) /\
  (forall e, outcome call s = Raise e -> state_after call s = s) /\
  Schedules.piecewise_constant_decay boundaries values s = call s /\
  (boundaries = [2; 4] -> values = [1; 2]%Q ->
     outcome call s = Raise ValueError) /\
  (n = 6 -> boundaries = [2; 4] -> values = [1; 2; 3]%Q ->
     outcome call s = Ok [Fin 1; Fin 1; Fin 2; Fin 2; Fin 3; Fin 3]).
Proof.
  intros Hn Hs call. destruct (init_inv n s Hs) as [Hns _].
  assert (length values <> S (length boundaries) ->
          outcome call s = Raise ValueError) as Harity.
  { intros Hne. unfold outcome, call. by rewrite piecewise_arity_error. }
  split; [done|]. split; [|split; [|split; [|split]]].
  - intros Hasc. split; [|done].
    intros Hraise Har. unfold call in Hraise.
    destruct boundaries as [|b boundaries].
    + destruct values as [|v [|]]; [done| |done].
      rewrite piecewise_no_boundaries in Hraise by lia. done.
    + destruct (piecewise_returns (b :: boundaries) values s)
        as (out & Hout & _); [lia|done|by rewrite Hns|].
      congruence.
  - intros e _. apply (preserves_shared
      (PiecewiseConstantDecay boundaries values)).
  - reflexivity.
  - intros -> ->. by apply Harity.
  - intros -> -> ->. unfold call.
    rewrite piecewise_loop by done. rewrite Hns. reflexivity.
Qed.

End piecewise.

(** ** The length of the returned sequence *)

Lemma length_setitem (a : list f64) (i : Z) (v : f64) (r : list f64) :
  np.setitem a i v = Ok r -> length r = length a.
Proof.
  unfold np.setitem. destruct (np.position _ i); [|done].
  intros [= <-]. apply length_insert.
Qed.

Lemma recurrence_length (n : Z) (v : f64)
    (body : list f64 -> Z -> result (list f64)) (out : list f64) :
  (forall x i x', body x i = Ok x' -> length x' = length x) ->
  recurrence n v body = Ok out -> length out = Z.to_nat n.
Proof.
  intros Hbody. unfold recurrence, np.zeros, np.full.
  destruct (n <? 0); [done|]. cbn [rbind].
  destruct (np.setitem _ 0 v) as [start|] eqn:E; [cbn [rbind]|done].
  apply length_setitem in E. rewrite length_replicate in E.
  apply (for_each_preserves _ (fun x => length x = Z.to_nat n)); [|done].
  intros x i x' Hx Hx'. by rewrite (Hbody _ _ _ Hx').
Qed.

Section lengths.
Context `{Libm}.

Lemma constant_outcome (v : Q) (s : self) :
  outcome (Schedule.constant v) s =
  Ok (replicate (length (steps s)) (float64 v)).
Proof.
  unfold outcome, Schedule.constant, bind, self_steps, lift, np.full.
  cbn [fst]. destruct (Z.ltb_spec (Z.of_nat (length (steps s))) 0); [lia|].
  by rewrite Nat2Z.id.
Qed.

Lemma shared_length (c : shared_call) (s : self) (sequence : list f64) :
  0 <= n_steps s -> length (steps s) = Z.to_nat (n_steps s) ->
  outcome (Schedule_invoke_shared c) s = Ok sequence ->
  length sequence = Z.to_nat (n_steps s).
Proof.
  intros Hn Hlen.
  destruct c as [a r [|]|a al|a r [|]|a e p [|]|bs vs|v];
    try (intros [= <-]; rewrite ?length_zip_with, ?length_fmap;
         unfold Schedule.horizon; rewrite ?length_fmap; lia).
  - apply piecewise_length.
  - simpl. rewrite constant_outcome. intros [= <-].
    rewrite length_replicate. lia.
Qed.

Lemma invoke_length (c : call) (s : self) (sequence : list f64) :
  0 <= n_steps s -> length (steps s) = Z.to_nat (n_steps s) ->
  outcome (Schedule_invoke c) s = Ok sequence ->
  length sequence = Z.to_nat (n_steps s).
Proof.
  intros Hn Hlen. destruct c as [c|a d m|a d m|a r|a d k]; simpl.
  - by apply shared_length.
  - rewrite geometric_decay_loop. apply recurrence_length.
    intros x i x'. destruct (float_pow d i); [|done]. apply length_setitem.
  - rewrite arithmetic_decay_loop. apply recurrence_length.
    intros x i x'. apply length_setitem.
  - rewrite time_decay_loop. apply recurrence_length.
    intros x i x'. destruct (np.getitem x i); [|done]. apply length_setitem.
  - rewrite step_decay_loop. apply recurrence_length.
    intros x i x'. destruct (Schedule.truediv _ k); [|done].
    apply length_setitem.
Qed.

Lemma shared_returns (c : shared_call) (s : self) :
  0 <= n_steps s -> admissible (n_steps s) (Shared c) = true ->
  exists sequence, outcome (Schedule_invoke_shared c) s = Ok sequence.
Proof.
  intros Hn Hadm.
  destruct c as [a r [|]|a al|a r [|]|a e p [|]|bs vs|v];
    try (eexists; reflexivity).
  - simpl in Hadm. apply andb_true_iff in Hadm as [Har Hpart].
    apply Nat.eqb_eq in Har.
    destruct (piecewise_returns bs vs s) as (out & Hout & _); eauto.
  - eexists. apply constant_outcome.
Qed.

Lemma invoke_returns (c : call) (s : self) :
  1 <= n_steps s -> admissible (n_steps s) c = true ->
  exists sequence, outcome (Schedule_invoke c) s = Ok sequence.
Proof.
  intros Hn Hadm. destruct c as [c|a d m|a d m|a r|a d k]; simpl.
  - apply shared_returns; [lia|done].
  - rewrite geometric_decay_loop.
    destruct (recurrence_spec (n_steps s) (float64 a)
      (fun sequence i =>
         rbind (float_pow d i) (fun power =>
         np.setitem sequence (i + 1)
           (np.maximum (float64 (a * power)) (float64 m))))
      (fun _ i =>
         np.maximum (float64 (a * d ^ Z.of_nat i)) (float64 m)))
      as (out & Hout & _); [done| |eauto].
    intros sequence i x Hlen Hi _.
    rewrite (pow_fits_at d (n_steps s) i Hadm Hi). cbn [rbind].
    by apply (setitem_next _ (n_steps s)).
  - rewrite arithmetic_decay_loop.
    destruct (recurrence_spec (n_steps s) (float64 a)
      (fun sequence i =>
         np.setitem sequence (i + 1)
           (np.maximum (float64 (a - d * inject_Z i)) (float64 m)))
      (fun _ i =>
         np.maximum (float64 (a - d * inject_Z (Z.of_nat i))) (float64 m)))
      as (out & Hout & _); [done| |eauto].
    intros sequence i x Hlen Hi _. by apply (setitem_next _ (n_steps s)).
  - rewrite time_decay_loop.
    destruct (recurrence_spec (n_steps s) (float64 a)
      (fun sequence i =>
         rbind (np.getitem sequence i) (fun prev =>
         np.setitem sequence (i + 1)
           (np.divide prev (float64 (1 + r * inject_Z i)))))
      (fun x i => np.divide x (float64 (1 + r * inject_Z (Z.of_nat i)))))
      as (out & Hout & _); [done| |eauto].
    intros sequence i x Hlen Hi Hx.
    rewrite (getitem_in_range sequence (Z.of_nat i) x);
      [|lia|by rewrite Nat2Z.id].
    by apply (setitem_next _ (n_steps s)).
  - simpl in Hadm. apply negb_true_iff in Hadm.
    rewrite step_decay_loop.
    destruct (recurrence_spec (n_steps s) (float64 a)
      (fun sequence i =>
         rbind (Schedule.truediv (1 + i) k) (fun q =>
         np.setitem sequence (i + 1)
           (np.multiply (float64 a)
              (np.power (float64 d) (np.floor (float64 q))))))
      (fun _ i =>
         np.multiply (float64 a)
           (np.power (float64 d)
              (np.floor (float64 (inject_Z (1 + Z.of_nat i) / inject_Z k))))))
      as (out & Hout & _); [done| |eauto].
    intros sequence i x Hlen Hi _. unfold Schedule.truediv. rewrite Hadm.
    by apply (setitem_next _ (n_steps s)).
Qed.

(** C4, as the code has it: on a generator of [n_steps >= 1], a sequence
    that a method returns has exactly [n_steps] elements, and the method
    does return one when, for [piecewise_constant_decay], there is one value
    per piece and the boundaries are [0 <= b1 <= ... <= bk <= n_steps],
    when, for [step_decay], [i_drop] is not zero, and when, for
    [geometric_decay], no power [decay ** i] overflows.  The six methods of
    [Schedules] behave as those of [Schedule]. *)
Theorem C4_sequence_length (n : Z) (s : self) (c : call) :
  1 <= n -> Schedule.__init__ n = Ok s ->
  (forall sequence : list f64,
      outcome (Schedule_invoke c) s = Ok sequence ->
      Z.of_nat (length sequence) = n) /\
  (admissible n c = true ->
   exists sequence : list f64,
     outcome (Schedule_invoke c) s = Ok sequence /\
     Z.of_nat (length sequence) = n) /\
  (forall c' : shared_call,
      c = Shared c' ->
      outcome (Schedules_invoke c') s = outcome (Schedule_invoke c) s).
Proof.
  intros Hn Hs. destruct (init_inv n s Hs) as [Hns _].
  pose proof (length_steps n s ltac:(lia) Hs) as Hlen.
  assert (forall sequence : list f64,
    outcome (Schedule_invoke c) s = Ok sequence ->
    Z.of_nat (length sequence) = n) as Hlength.
  { intros sequence Hseq.
    rewrite (invoke_length c s sequence); [lia|lia|lia|done]. }
  split; [done|]. split.
  - intros Hadm. destruct (invoke_returns c s) as [out Hout];
      [lia|by rewrite Hns|]. eauto.
  - intros c' ->. by destruct c'.
Qed.

End lengths.

(** ** The properties on concrete generators *)



Lemma C2_classes_agree_witness :
  Schedules.__init__ 6 = Ok (generator 6) /\
  @Schedules_invoke coarse_libm (PiecewiseConstantDecay [2; 4] [1; 2; 3]%Q)
    (generator 6) =
  @Schedule_invoke_shared coarse_libm
    (PiecewiseConstantDecay [2; 4] [1; 2; 3]%Q) (generator 6).
Proof.
  apply (@C2_classes_agree coarse_libm 6); [lia|reflexivity].
Defined.

Lemma C3_piecewise_validation_witness :
  outcome (Schedule.piecewise_constant_decay [2; 4] [1; 2; 3]%Q) (generator 6)
    = Ok [Fin 1; Fin 1; Fin 2; Fin 2; Fin 3; Fin 3] /\
  outcome (Schedule.piecewise_constant_decay [2; 4] [1; 2]%Q) (generator 6)
    = Raise ValueError.
Proof.
  split.
  - apply (@C3_piecewise_validation coarse_libm 6 (generator 6)
             [2; 4] [1; 2; 3]%Q); [lia|reflexivity|reflexivity..].
  - apply (@C3_piecewise_validation coarse_libm 6 (generator 6)
             [2; 4] [1; 2]%Q); [lia|reflexivity|reflexivity..].
Defined.

(** With one value per piece, the decreasing boundaries [[4, 2]] make
    numpy raise ValueError, for the negative length of the second piece. *)
Lemma C3_counterexample :
  Schedule.__init__ 6 = Ok (generator 6) /\
  ~ (outcome (Schedule.piecewise_constant_decay [4; 2] [1; 2; 3]%Q)
       (generator 6) = Raise ValueError <->
     length [1; 2; 3]%Q <> S (length [4; 2])).
Proof.
  split; [reflexivity|]. intros [Hraise _]. by apply Hraise.
Qed.

Lemma C4_sequence_length_witness :
  exists sequence : list f64,
    outcome (@Schedule_invoke coarse_libm (StepDecay 1 (1 # 2) 2)) (generator 5)
      = Ok sequence /\
    Z.of_nat (length sequence) = 5.
Proof.
  apply (@C4_sequence_length coarse_libm 5 (generator 5)
           (StepDecay 1 (1 # 2) 2)); [lia|reflexivity|reflexivity].
Defined.

(** Calls that return no sequence: boundaries out of order, boundaries past
    the last step, no boundary at all, a zero [i_drop], and a power of
    [decay] that overflows. *)
Lemma C4_counterexample :
  Schedule.__init__ 6 = Ok (generator 6) /\
  length [1; 2; 3]%Q = S (length [4; 2]) /\
  outcome (@Schedule_invoke coarse_libm
             (Shared (PiecewiseConstantDecay [4; 2] [1; 2; 3]%Q)))
    (generator 6) = Raise ValueError /\
  outcome (@Schedule_invoke coarse_libm
             (Shared (PiecewiseConstantDecay [2; 10] [1; 2; 3]%Q)))
    (generator 6) = Raise ValueError /\
  outcome (@Schedule_invoke coarse_libm
             (Shared (PiecewiseConstantDecay [] [1]%Q)))
    (generator 6) = Raise TypeError /\
  outcome (@Schedule_invoke coarse_libm (StepDecay 1 (1 # 2) 0))
    (generator 6) = Raise ZeroDivisionError /\
  outcome (@Schedule_invoke coarse_libm (GeometricDecay 1 (2 ^ 600) 0))
    (generator 4) = Raise OverflowError.
Proof. repeat split; by vm_compute. Qed.

Lemma C5_geometric_decay_witness :
  exists sequence : list f64,
    outcome (Schedule.geometric_decay 10 (1 # 2) 1) (generator 4)
      = Ok sequence /\
    sequence = [Fin 10; Fin 10; Fin 5; Fin (5 # 2)].
Proof.
  destruct (C5_geometric_decay 4 (generator 4) 10 (1 # 2) 1)
    as [Hreturns _]; [lia|reflexivity|].
  destruct Hreturns as (sequence & Hout & _ & _ & _ & Hexample);
    [reflexivity|].
  exists sequence. split; [exact Hout|]. apply Hexample; reflexivity.
Defined.

(** [geometric_decay(1.0, 2.0**600, 0.0)] on four steps raises: the power
    [(2.0**600) ** 2] overflows. *)
Lemma C5_counterexample :
  Schedule.__init__ 4 = Ok (generator 4) /\
  outcome (Schedule.geometric_decay 1 (2 ^ 600) 0) (generator 4)
    = Raise OverflowError /\
  ~ (exists sequence : list f64,
       outcome (Schedule.geometric_decay 1 (2 ^ 600) 0) (generator 4)
         = Ok sequence).
Proof.
  assert (outcome (Schedule.geometric_decay 1 (2 ^ 600) 0) (generator 4)
          = Raise OverflowError) as E by (by vm_compute).
  split; [reflexivity|]. split; [exact E|].
  intros [sequence Hseq]. rewrite E in Hseq. discriminate Hseq.
Qed.

Lemma C6_step_decay_witness :
  exists sequence : list f64,
    outcome (@Schedule.step_decay coarse_libm 1 (1 # 2) 2) (generator 5)
      = Ok sequence /\
    sequence = [Fin 1; Fin 1; Fin (1 # 2); Fin (1 # 2); Fin (1 # 4)].
Proof.
  destruct (@C6_step_decay coarse_libm 5 (generator 5) 1 (1 # 2) 2)
    as (sequence & Hout & _ & _ & _ & Hexample); [lia|lia|reflexivity|].
  exists sequence. split; [exact Hout|]. apply Hexample; reflexivity.
Defined.

Lemma C7_time_decay_witness :
  exists sequence : list f64,
    outcome (Schedule.time_decay 1 (1 # 2)) (generator 5) = Ok sequence /\
    element sequence 0 1 /\
    exists previous : f64,
      sequence !! 2%nat = Some previous /\
      sequence !! 3%nat = Some (np.divide previous (float64 (1 + (1 # 2) * 2))).
Proof.
  destruct (C7_time_decay 5 (generator 5) 1 (1 # 2))
    as (sequence & Hout & _ & Hfirst & Hrec); [lia|reflexivity|].
  exists sequence. split; [exact Hout|]. split; [exact Hfirst|].
  destruct (Hrec 3%nat) as (previous & Hprev & Hnext & _); [lia|].
  exists previous. split; [exact Hprev|exact Hnext].
Defined.

Lemma C8_state_unchanged_witness :
  state_after
    (@Schedule_invoke coarse_libm
       (Shared (PiecewiseConstantDecay [2; 4] [1; 2]%Q))) (generator 6)
    = generator 6.
Proof.
  apply (@C8_state_unchanged coarse_libm (generator 6)
           (Shared (PiecewiseConstantDecay [2; 4] [1; 2]%Q))).
Defined.

Lemma C9_staircase_exponential_witness :
  exists sequence : list f64,
    outcome (@Schedule.exponential_decay coarse_libm 3 (1 # 2) true)
      (generator 5) = Ok sequence /\
    element sequence 3 3 /\ element sequence 4 (3 * (1 # 2)).
Proof.
  destruct (@C9_staircase_exponential coarse_libm 5 (generator 5) 3 (1 # 2))
    as (sequence & Hout & _ & Hhead & Hlast & _); [lia|reflexivity|].
  exists sequence. split; [exact Hout|]. split; [|exact Hlast].
  apply (Hhead 3%nat). lia.
Defined.



(** * Further properties of the two classes *)

(** ** Construction *)

(** X1: The constructor, of either class, raises ValueError exactly on a
    negative [n_steps]; otherwise it builds a generator whose [steps] has
    [n_steps] elements, none for [n_steps = 0]. *)
Theorem init_raises_iff_negative (n : Z) :
  (Schedule.__init__ n = Raise ValueError <-> n < 0) /\
  (forall e, Schedule.__init__ n = Raise e -> e = ValueError) /\
  (0 <= n ->
   exists s, Schedule.__init__ n = Ok s /\ n_steps s = n /\
     Z.of_nat (length (steps s)) = n) /\
  Schedules.__init__ n = Schedule.__init__ n.
Proof.
  assert (n < 0 -> Schedule.__init__ n = Raise ValueError) as Hneg.
  { intros Hn. unfold Schedule.__init__, np.linspace.
    by replace (n <? 0) with true by lia. }
  assert (0 <= n ->
    exists s, Schedule.__init__ n = Ok s /\ n_steps s = n /\
      Z.of_nat (length (steps s)) = n) as Hpos.
  { intros Hn. destruct (linspace_returns n Hn) as [st Hst].
    exists {| n_steps := n; steps := st |}.
    unfold Schedule.__init__. rewrite Hst. split; [done|]. split; [done|].
    simpl. rewrite (length_linspace _ _ Hst). lia. }
  split; [|split; [|split; [done|done]]].
  - split; [|done]. intros Hraise.
    destruct (Z.lt_ge_cases n 0) as [|Hn]; [done|].
    destruct (Hpos Hn) as (s & Hs & _). congruence.
  - intros e He. destruct (Z.lt_ge_cases n 0) as [Hn|Hn].
    + rewrite (Hneg Hn) in He. by injection He.
    + destruct (Hpos Hn) as (s & Hs & _). congruence.
Qed.

Section zero_steps.
Context `{Libm}.

(** X2: On a generator of zero steps the four recurrences raise IndexError,
    at [sequence[0] = initial_value], whatever their parameters, while the
    methods that map over [steps] return the empty sequence. *)
Theorem zero_steps_outcomes (s : self) :
  Schedule.__init__ 0 = Ok s ->
  (forall a d m, outcome (Schedule.geometric_decay a d m) s = Raise IndexError) /\
  (forall a d m, outcome (Schedule.arithmetic_decay a d m) s = Raise IndexError) /\
  (forall a r, outcome (Schedule.time_decay a r) s = Raise IndexError) /\
  (forall a d k, outcome (Schedule.step_decay a d k) s = Raise IndexError) /\
  (forall a r b, outcome (Schedule.exponential_decay a r b) s = Ok []) /\
  (forall a al, outcome (Schedule.cosine_decay a al) s = Ok []) /\
  (forall a r b, outcome (Schedule.inverse_time_decay a r b) s = Ok []) /\
  (forall a e p b, outcome (Schedule.polynomial_decay a e p b) s = Ok []) /\
  (forall v, outcome (Schedule.constant v) s = Ok []).
Proof.
  intros Hs. destruct (init_inv 0 s Hs) as [Hns Hst].
  assert (steps s = []) as Hsteps.
  { change (Ok [] = Ok (steps s)) in Hst. by injection Hst. }
  repeat split; intros.
  - by rewrite geometric_decay_loop, Hns.
  - by rewrite arithmetic_decay_loop, Hns.
  - by rewrite time_decay_loop, Hns.
  - by rewrite step_decay_loop, Hns.
  - unfold outcome, Schedule.exponential_decay, bind, self_n_steps,
      self_steps, ret. cbn [fst]. rewrite Hsteps. by destruct b.
  - unfold outcome, Schedule.cosine_decay, bind, self_n_steps,
      self_steps, ret. cbn [fst]. by rewrite Hsteps.
  - unfold outcome, Schedule.inverse_time_decay, bind, self_n_steps,
      self_steps, ret. cbn [fst]. rewrite Hsteps. by destruct b.
  - unfold outcome, Schedule.polynomial_decay, bind, self_n_steps,
      self_steps, ret. cbn [fst]. rewrite Hsteps. by destruct b.
  - rewrite constant_outcome, Hsteps. done.
Qed.

(** X3: [constant(value)] returns [n_steps] copies of [value], in both
    classes. *)
Theorem constant_repeats (n : Z) (s : self) (value : Q) :
  0 <= n -> Schedule.__init__ n = Ok s ->
  outcome (Schedule.constant value) s
    = Ok (replicate (Z.to_nat n) (float64 value)) /\
  outcome (Schedules.constant value) s
    = Ok (replicate (Z.to_nat n) (float64 value)).
Proof.
  intros Hn Hs. pose proof (length_steps n s Hn Hs) as Hlen.
  assert (outcome (Schedule.constant value) s
          = Ok (replicate (Z.to_nat n) (float64 value))) as E.
  { rewrite constant_outcome. do 2 f_equal. lia. }
  split; [exact E|exact E].
Qed.

(** X4: [step_decay] with [i_drop = 0] raises ZeroDivisionError as soon as there
    are two steps; with a single step the loop is not entered and it returns
    [[initial]]. *)
Theorem step_decay_zero_drop (n : Z) (s : self) (initial drop : Q) :
  1 <= n -> Schedule.__init__ n = Ok s ->
  (n = 1 ->
   outcome (Schedule.step_decay initial drop 0) s = Ok [float64 initial]) /\
  (2 <= n ->
   outcome (Schedule.step_decay initial drop 0) s = Raise ZeroDivisionError).
Proof.
  intros Hn Hs. destruct (init_inv n s Hs) as [Hns _].
  rewrite step_decay_loop, Hns. split.
  - by intros ->.
  - intros Hn2. unfold recurrence.
    rewrite zeros_nonneg by lia. cbn [rbind].
    rewrite setitem_in_range by (rewrite length_replicate; lia). cbn [rbind].
    unfold range. destruct (Z.to_nat (n - 1)) as [|k] eqn:E; [lia|].
    reflexivity.
Qed.

End zero_steps.

(** ** The methods that map over [steps] *)

Lemma steps_finite (n : Z) (s : self) (i : nat) (x : f64) :
  Schedule.__init__ n = Ok s -> steps s !! i = Some x ->
  exists q, x = float64 q.
Proof.
  intros Hs Hx. destruct (init_inv n s Hs) as [_ Hst].
  unfold np.linspace in Hst. destruct (n <? 0); [done|]. cbv zeta in Hst.
  injection Hst as Hst. rewrite <- Hst, list_lookup_fmap in Hx.
  destruct (_ !! i) as [q|]; [|done]. exists q. by injection Hx.
Qed.

Lemma float64_eq (p q : Q) : (p == q)%Q -> float64 p = float64 q.
Proof. intros E. unfold float64. f_equal. by apply Qred_complete. Qed.

Lemma float64_Qred (q : Q) : float64 (Qred q) = float64 q.
Proof. apply float64_eq, Qred_correct. Qed.

(** An element of [steps], what it is at most, and its quotient by
    [n_steps]. *)
Lemma steps_fraction (n : Z) (s : self) (i : nat) :
  2 <= n -> Schedule.__init__ n = Ok s -> Z.of_nat i < n ->
  exists q,
    steps s !! i = Some (float64 q) /\
    (q <= inject_Z n)%Q /\
    np.divide (float64 q) (of_int n)
      = float64 (inject_Z (Z.of_nat i) / inject_Z (n - 1)).
Proof.
  intros Hn Hs Hi. destruct (init_inv n s Hs) as [_ Hst].
  destruct (linspace_lookup n (steps s) i) as (q & Hq & Eq); [lia|done|lia|].
  assert (0 < inject_Z (n - 1))%Q as Hd by (apply inject_Z_pos; lia).
  assert (~ (inject_Z (n - 1) == 0)%Q) as Hd0 by (apply inject_Z_nonzero; lia).
  assert (~ (inject_Z n == 0)%Q) as Hn0 by (apply inject_Z_nonzero; lia).
  exists q. split; [done|]. split.
  - rewrite Eq. apply Qle_shift_div_r; [done|].
    rewrite <- !inject_Z_mult, <- Zle_Qle. nia.
  - rewrite divide_by_int by lia. apply float64_eq.
    rewrite !Qred_correct, Eq. field. by split.
Qed.

Lemma minimum_below (q : Q) (n : Z) :
  (q <= inject_Z n)%Q -> np.minimum (float64 q) (of_int n) = float64 q.
Proof.
  intros Hq. unfold np.minimum, np.lift2, of_int, float64 at 1 2.
  rewrite <- (float64_Qred q). apply float64_eq.
  apply Q.min_l. by rewrite !Qred_correct.
Qed.

Section mapped.
Context `{Libm}.

(** [pow] at an exponent that is an integer as a number. *)
Lemma power_integer_eq (b e : Q) (k : Z) :
  (e == inject_Z k)%Q ->
  np.power (float64 b) (float64 e) =
  if (k <? 0) && Qeq_bool b 0 then NotFinite else float64 (Qred b ^ k).
Proof.
  intros E. rewrite <- power_integer. f_equal.
  unfold float64. f_equal. rewrite <- (Qred_inject_Z k).
  by apply Qred_complete.
Qed.

Lemma cosine_decay_outcome (initial alpha : Q) (s : self) :
  outcome (Schedule.cosine_decay initial alpha) s =
  Ok ((fun d => np.multiply (float64 initial) d) <$>
      ((fun c => np.add (np.multiply (float64 (1 - alpha)) c) (float64 alpha)) <$>
       ((fun x =>
           np.multiply (float64 (1 # 2))
             (np.add (float64 1)
                (np.cos (np.multiply (float64 np.pi)
                           (np.divide x (of_int (n_steps s))))))) <$>
        ((fun x => np.minimum x (of_int (n_steps s))) <$> steps s)))).
Proof. reflexivity. Qed.

(** X5: [cosine_decay] with [alpha = 1] is constant: every element is
    [initial], whatever the cosine. *)
Theorem cosine_decay_alpha_one (n : Z) (s : self) (initial : Q) :
  1 <= n -> Schedule.__init__ n = Ok s ->
  exists sequence : list f64,
    outcome (Schedule.cosine_decay initial 1) s = Ok sequence /\
    Z.of_nat (length sequence) = n /\
    (forall i : nat, Z.of_nat i < n -> element sequence i initial).
Proof.
  intros Hn Hs. destruct (init_inv n s Hs) as [Hns _].
  pose proof (length_steps n s ltac:(lia) Hs) as Hlen.
  rewrite cosine_decay_outcome, Hns. eexists. split; [reflexivity|].
  split; [by rewrite !length_fmap|].
  intros i Hi.
  destruct (lookup_lt_is_Some_2 (steps s) i) as [x Hx]; [lia|].
  destruct (steps_finite n s i x Hs Hx) as [q ->].
  unfold element. rewrite !list_lookup_fmap, Hx.
  cbn [fmap option_fmap option_map].
  unfold np.minimum, np.divide, np.multiply, np.add, np.cos, np.lift2,
    of_int, float64.
  rewrite Qeq_bool_false
    by (rewrite Qred_correct; apply inject_Z_nonzero; lia).
  eexists. split; [reflexivity|]. rewrite !Qred_correct. ring.
Qed.


Lemma exponential_decay_smooth (initial rate : Q) (s : self) :
  outcome (Schedule.exponential_decay initial rate false) s =
  Ok ((fun x =>
         np.multiply (float64 initial)
           (np.power (float64 rate) (np.divide x (of_int (n_steps s)))))
        <$> steps s).
Proof. reflexivity. Qed.

(** X6: [exponential_decay] without staircase starts at [initial] and, on two
    steps or more, ends at [initial * rate]: the exponents at the two ends
    are 0 and 1, where [pow] is exact. *)
Theorem exponential_decay_endpoints (n : Z) (s : self) (initial rate : Q) :
  2 <= n -> Schedule.__init__ n = Ok s ->
  exists sequence : list f64,
    outcome (Schedule.exponential_decay initial rate false) s = Ok sequence /\
    Z.of_nat (length sequence) = n /\
    element sequence 0 initial /\
    element sequence (Z.to_nat (n - 1)) (initial * rate).
Proof.
  intros Hn Hs. destruct (init_inv n s Hs) as [Hns _].
  pose proof (length_steps n s ltac:(lia) Hs) as Hlen.
  assert (~ (inject_Z (n - 1) == 0)%Q) as Hd0 by (apply inject_Z_nonzero; lia).
  rewrite exponential_decay_smooth, Hns. eexists. split; [reflexivity|].
  split; [by rewrite length_fmap|].
  assert (forall (i : nat) (k : Z), Z.of_nat i < n -> 0 <= k ->
    (inject_Z (Z.of_nat i) / inject_Z (n - 1) == inject_Z k)%Q ->
    element
      ((fun x => np.multiply (float64 initial)
                   (np.power (float64 rate) (np.divide x (of_int n))))
         <$> steps s) i (initial * rate ^ k)) as Hel.
  { intros i k Hi Hk E.
    destruct (steps_fraction n s i Hn Hs Hi) as (q & Hq & _ & Hdiv).
    apply (element_float64 _ _ (Qred initial * Qred (Qred rate ^ k))).
    - rewrite (lookup_fmap_Some _ _ _ _ Hq), Hdiv, (power_integer_eq _ _ k E).
      by replace (k <? 0) with false by lia.
    - by rewrite !Qred_correct. }
  split.
  - destruct (Hel 0%nat 0) as (p & Hp & Ep); [lia|lia| |].
    + simpl. field. exact Hd0.
    + exists p. split; [done|]. rewrite Ep. simpl. ring.
  - destruct (Hel (Z.to_nat (n - 1)) 1) as (p & Hp & Ep); [lia|lia| |].
    + rewrite Z2Nat.id by lia. field. exact Hd0.
    + exists p. split; [done|]. rewrite Ep. simpl. ring.
Qed.

Lemma inverse_time_decay_smooth (initial rate : Q) (s : self) :
  outcome (Schedule.inverse_time_decay initial rate false) s =
  Ok ((fun x =>
         np.divide (float64 initial)
           (np.add (float64 1)
              (np.multiply (float64 rate) (np.divide x (of_int (n_steps s))))))
        <$> steps s).
Proof. reflexivity. Qed.

Lemma inverse_time_decay_staircase (initial rate : Q) (s : self) :
  outcome (Schedule.inverse_time_decay initial rate true) s =
  Ok ((fun x =>
         np.divide (float64 initial)
           (np.add (float64 1)
              (np.multiply (float64 rate)
                 (np.floor (np.divide x (of_int (n_steps s)))))))
        <$> steps s).
Proof. reflexivity. Qed.

(** [initial / (1 + rate * t)] as numpy computes it: not finite when the
    divisor is zero. *)
Lemma inverse_time_value (initial rate t : Q) :
  np.divide (float64 initial)
    (np.add (float64 1) (np.multiply (float64 rate) (float64 t))) =
  if Qeq_bool (1 + rate * t) 0 then NotFinite
  else float64 (Qred initial / Qred (Qred 1 + Qred (Qred rate * Qred t))).
Proof.
  unfold np.divide, np.add, np.multiply, np.lift2, float64.
  assert (Qeq_bool (Qred (Qred 1 + Qred (Qred rate * Qred t))) 0
          = Qeq_bool (1 + rate * t) 0) as ->; [|done].
  by rewrite !Qred_correct.
Qed.

(** [inverse_time_decay] without staircase, over the exact rationals. *)
Lemma inverse_time_decay_smooth_at (n : Z) (s : self)
    (initial rate : Q) :
  2 <= n -> Schedule.__init__ n = Ok s ->
  exists sequence : list f64,
    outcome (Schedule.inverse_time_decay initial rate false) s = Ok sequence /\
    Z.of_nat (length sequence) = n /\
    (forall i : nat, Z.of_nat i < n ->
       let d := (1 + rate * (inject_Z (Z.of_nat i) / inject_Z (n - 1)))%Q in
       if Qeq_bool d 0 then sequence !! i = Some NotFinite
       else element sequence i (initial / d)).
Proof.
  intros Hn Hs. destruct (init_inv n s Hs) as [Hns _].
  pose proof (length_steps n s ltac:(lia) Hs) as Hlen.
  rewrite inverse_time_decay_smooth, Hns. eexists. split; [reflexivity|].
  split; [by rewrite length_fmap|].
  intros i Hi d.
  destruct (steps_fraction n s i Hn Hs Hi) as (q & Hq & _ & Hdiv).
  pose proof (lookup_fmap_Some
    (fun x => np.divide (float64 initial)
       (np.add (float64 1)
          (np.multiply (float64 rate) (np.divide x (of_int n)))))
    _ _ _ Hq) as Hel.
  cbv beta in Hel. rewrite Hdiv, inverse_time_value in Hel. fold d in Hel.
  destruct (Qeq_bool d 0); [done|].
  apply (element_float64 _ _ _ _ Hel). unfold d. by rewrite !Qred_correct.
Qed.

(** X7: [inverse_time_decay] without staircase on two steps or more starts
    at [initial], where the divisor is [1 + rate * 0], and ends at
    [initial / (1 + rate)], where it is [1 + rate * 1]; the last element is
    not finite for [rate = -1]. *)
Theorem inverse_time_decay_endpoints (n : Z) (s : self)
    (initial rate : Q) :
  2 <= n -> Schedule.__init__ n = Ok s ->
  exists sequence : list f64,
    outcome (Schedule.inverse_time_decay initial rate false) s = Ok sequence /\
    Z.of_nat (length sequence) = n /\
    element sequence 0 initial /\
    (if Qeq_bool (1 + rate) 0
     then sequence !! Z.to_nat (n - 1) = Some NotFinite
     else element sequence (Z.to_nat (n - 1)) (initial / (1 + rate))).
Proof.
  intros Hn Hs.
  destruct (inverse_time_decay_smooth_at n s initial rate Hn Hs)
    as (out & Hout & Hlen & Hel).
  assert (~ (inject_Z (n - 1) == 0)%Q) as Hd0 by (apply inject_Z_nonzero; lia).
  exists out. split; [done|]. split; [done|]. split.
  - specialize (Hel 0%nat ltac:(lia)). cbv zeta in Hel.
    assert (1 + rate * (inject_Z (Z.of_nat 0) / inject_Z (n - 1)) == 1)%Q
      as E by (simpl; field; exact Hd0).
    rewrite (Qeq_bool_false _ 0) in Hel
      by (rewrite E; intros E0; discriminate E0).
    destruct Hel as (p & Hp & Ep). exists p. split; [done|].
    rewrite Ep, E. field.
  - specialize (Hel (Z.to_nat (n - 1)) ltac:(lia)). cbv zeta in Hel.
    assert (1 + rate * (inject_Z (Z.of_nat (Z.to_nat (n - 1)))
                        / inject_Z (n - 1)) == 1 + rate)%Q
      as E by (rewrite Z2Nat.id by lia; field; exact Hd0).
    assert (Qeq_bool
              (1 + rate * (inject_Z (Z.of_nat (Z.to_nat (n - 1)))
                           / inject_Z (n - 1))) 0
            = Qeq_bool (1 + rate) 0) as Eb by (by rewrite E).
    rewrite Eb in Hel. destruct (Qeq_bool (1 + rate) 0) eqn:E0; [done|].
    destruct Hel as (p & Hp & Ep). exists p. split; [done|].
    by rewrite Ep, E.
Qed.

(** X8: [inverse_time_decay] with staircase on two steps or more: [initial]
    before the last element and [initial / (1 + rate)] at it, which is not
    finite for [rate = -1]. *)
Theorem inverse_time_decay_stairs (n : Z) (s : self) (initial rate : Q) :
  2 <= n -> Schedule.__init__ n = Ok s ->
  exists sequence : list f64,
    outcome (Schedule.inverse_time_decay initial rate true) s = Ok sequence /\
    Z.of_nat (length sequence) = n /\
    (forall i : nat, Z.of_nat i <= n - 2 -> element sequence i initial) /\
    (if Qeq_bool (1 + rate) 0
     then sequence !! Z.to_nat (n - 1) = Some NotFinite
     else element sequence (Z.to_nat (n - 1)) (initial / (1 + rate))).
Proof.
  intros Hn Hs. destruct (init_inv n s Hs) as [Hns _].
  pose proof (length_steps n s ltac:(lia) Hs) as Hlen.
  rewrite inverse_time_decay_staircase, Hns. eexists. split; [reflexivity|].
  split; [by rewrite length_fmap|].
  assert (forall i : nat, Z.of_nat i < n ->
    ((fun x => np.divide (float64 initial)
        (np.add (float64 1)
           (np.multiply (float64 rate) (np.floor (np.divide x (of_int n))))))
       <$> steps s) !! i =
    Some (let k := inject_Z (if decide (Z.of_nat i = n - 1) then 1 else 0) in
          if Qeq_bool (1 + rate * k) 0 then NotFinite
          else float64 (Qred initial / Qred (Qred 1 + Qred (Qred rate * Qred k)))))
    as Hel.
  { intros i Hi.
    destruct (staircase_exponent n s i Hn Hs Hi) as (x & Hx & Ex).
    rewrite (lookup_fmap_Some _ _ _ _ Hx), Ex.
    rewrite <- (Qred_inject_Z (if decide _ then _ else _)) at 1.
    fold (float64 (inject_Z (if decide (Z.of_nat i = n - 1) then 1 else 0))).
    by rewrite inverse_time_value. }
  split.
  - intros i Hi. specialize (Hel i ltac:(lia)).
    rewrite decide_False in Hel by lia. cbv zeta in Hel.
    rewrite Qeq_bool_false in Hel.
    2:{ assert (1 + rate * inject_Z 0 == 1)%Q as -> by (simpl; ring).
        intros E. discriminate E. }
    apply (element_float64 _ _ _ _ Hel). rewrite !Qred_correct.
    change (inject_Z 0) with 0%Q. field.
  - specialize (Hel (Z.to_nat (n - 1)) ltac:(lia)).
    rewrite decide_True in Hel by lia. cbv zeta in Hel.
    assert (Qeq_bool (1 + rate * inject_Z 1) 0 = Qeq_bool (1 + rate) 0) as E.
    { assert (1 + rate * inject_Z 1 == 1 + rate)%Q as -> by (simpl; ring).
      done. }
    rewrite E in Hel. destruct (Qeq_bool (1 + rate) 0) eqn:E0; [done|].
    apply (element_float64 _ _ _ _ Hel). rewrite !Qred_correct.
    change (inject_Z 1) with 1%Q.
    assert (~ (1 + rate == 0)%Q) as Hne.
    { intros E1. apply Qeq_bool_iff in E1. congruence. }
    field. intros E1. apply Hne. rewrite <- E1. ring.
Qed.


Lemma Qceiling_unit (q : Q) : (0 < q)%Q -> (q <= 1)%Q -> Qceiling q = 1.
Proof.
  intros Hlo Hhi. unfold Qceiling.
  assert (Qfloor (- q) = -1) as ->; [|done].
  apply Qfloor_unique.
  - change (inject_Z (-1)) with (- (1))%Q. lra.
  - change (inject_Z (-1 + 1)) with 0%Q. lra.
Qed.

Lemma polynomial_decay_plain (initial end_value power : Q) (s : self) :
  outcome (Schedule.polynomial_decay initial end_value power false) s =
  Ok ((fun x =>
         np.add
           (np.multiply (float64 (initial - end_value))
              (np.power
                 (np.subtract (float64 1) (np.divide x (of_int (n_steps s))))
                 (float64 power)))
           (float64 end_value))
        <$> ((fun x => np.minimum x (of_int (n_steps s))) <$> steps s)).
Proof. reflexivity. Qed.


(** X10: On two steps or more the cyclic [polynomial_decay] differs from the
    plain one at element 0 only: from element 1 on the horizon is
    [n_steps] and the two sequences agree, at every power. *)
Theorem polynomial_decay_cycle_matches (n : Z) (s : self)
    (initial end_value power : Q) :
  2 <= n -> Schedule.__init__ n = Ok s ->
  exists cyclic plain : list f64,
    outcome (Schedule.polynomial_decay initial end_value power true) s
      = Ok cyclic /\
    outcome (Schedule.polynomial_decay initial end_value power false) s
      = Ok plain /\
    (forall i : nat, 1 <= Z.of_nat i < n -> cyclic !! i = plain !! i).
Proof.
  intros Hn Hs. destruct (init_inv n s Hs) as [Hns _].
  rewrite polynomial_decay_cycle, polynomial_decay_plain, Hns.
  eexists. eexists. split; [reflexivity|]. split; [reflexivity|].
  intros i Hi.
  destruct (steps_fraction n s i Hn Hs ltac:(lia)) as (q & Hq & Hle & Hdiv).
  assert (Schedule.horizon n (steps s) !! i = Some (of_int n)) as Hh.
  { unfold Schedule.horizon. rewrite (lookup_fmap_Some _ _ _ _ Hq), Hdiv.
    f_equal. unfold np.ceil, float64 at 1.
    rewrite Qceiling_unit.
    - unfold np.multiply, np.lift2, of_int, float64 at 1 2.
      apply float64_eq. rewrite !Qred_correct. simpl. ring.
    - rewrite Qred_correct. apply Qlt_shift_div_l; [apply inject_Z_pos; lia|].
      rewrite Qmult_0_l. apply inject_Z_pos. lia.
    - rewrite Qred_correct. apply Qle_shift_div_r; [apply inject_Z_pos; lia|].
      rewrite Qmult_1_l, <- Zle_Qle. lia. }
  rewrite lookup_zip_with, Hq, Hh. cbn [mbind option_bind].
  apply (lookup_fmap_Some (fun x => np.minimum x (of_int n))) in Hq.
  cbv beta in Hq. rewrite (minimum_below q n Hle) in Hq.
  by rewrite (lookup_fmap_Some _ _ _ _ Hq).
Qed.

End mapped.

(** ** The outcomes and the values of [piecewise_constant_decay] *)

Lemma ascending_from_false (lo : Z) (bs : list Z) (n : Z) :
  ascending_from lo bs n = false ->
  exists (j : nat) (a b : Z),
    (lo :: bs ++ [n]) !! j = Some a /\ (lo :: bs ++ [n]) !! S j = Some b /\
    b < a.
Proof.
  revert lo. induction bs as [|b0 bs IH]; intros lo; simpl.
  - intros Hlo. exists 0%nat, lo, n. repeat split; lia.
  - intros [Hb|Hbs]%andb_false_iff.
    + exists 0%nat, lo, b0. repeat split; lia.
    + destruct (IH b0 Hbs) as (j & a & b & Ha & Hb & Hlt).
      by exists (S j), a, b.
Qed.

Lemma ascending_sorted (bs : list Z) (n : Z) (i j : nat) (x y : Z) :
  ascending_from 0 bs n = true -> (i <= j)%nat ->
  extended bs n !! i = Some x -> extended bs n !! j = Some y -> x <= y.
Proof.
  intros Hasc. revert y. induction j as [|j IH]; intros y Hij Hx Hy.
  - assert (i = 0%nat) as -> by lia. rewrite Hx in Hy. injection Hy. lia.
  - destruct (decide (i = S j)) as [->|Hne].
    + rewrite Hx in Hy. injection Hy. lia.
    + destruct (lookup_lt_is_Some_2 (extended bs n) j) as [z Hz].
      { apply lookup_lt_Some in Hy. lia. }
      pose proof (IH z ltac:(lia) Hx Hz).
      destruct (ascending_from_spec 0 bs n j z y Hasc Hz Hy) as (_ & ? & _).
      lia.
Qed.

Lemma setslice_raises (a : list f64) (start stop : Z) (src : list f64)
    (e : exn) :
  np.setslice a start stop src = Raise e -> e = ValueError.
Proof.
  unfold np.setslice. destruct (Nat.eqb _ _); [done|].
  destruct src as [|v [|]]; [|done|]; by intros [= <-].
Qed.

(** Once two consecutive boundaries are out of order, the loop over the
    pieces ends in ValueError. *)
Lemma pieces_descent (B : list Z) (vs : list Q) (k a : nat)
    (sequence : list f64) :
  length B = S (length vs) -> (a + k = length vs)%nat ->
  (exists (j : nat) (x y : Z),
      (a <= j)%nat /\ B !! j = Some x /\ B !! S j = Some y /\ y < x) ->
  for_each (Z.of_nat <$> seq a k)
    (fun sequence value =>
       rbind (np.index_at (np.int64s B) (value + 1)) (fun hi =>
       rbind (np.index_at (np.int64s B) value) (fun lo =>
       match vs !! Z.to_nat value with
       | None => Raise IndexError
       | Some v =>
           rbind (np.full (hi - lo) (float64 v)) (fun piece =>
           np.setslice sequence lo hi piece)
       end)))
    sequence = Raise ValueError.
Proof.
  intros HB. revert a sequence.
  induction k as [|k IH]; intros a sequence Hak (j & x & y & Hj & Hx & Hy & Hlt).
  - apply lookup_lt_Some in Hy. lia.
  - destruct (lookup_lt_is_Some_2 B a) as [lo Hlo]; [lia|].
    destruct (lookup_lt_is_Some_2 B (S a)) as [hi Hhi]; [lia|].
    destruct (lookup_lt_is_Some_2 vs a) as [v Hv]; [lia|].
    cbn [seq fmap list_fmap for_each].
    replace (Z.of_nat a + 1) with (Z.of_nat (S a)) by lia.
    rewrite (index_at_int64s B (S a) hi Hhi). cbn [rbind].
    rewrite (index_at_int64s B a lo Hlo). cbn [rbind].
    rewrite Nat2Z.id, Hv. unfold np.full.
    destruct (Z.ltb_spec (hi - lo) 0) as [Hneg|Hpos]; [done|]. cbn [rbind].
    destruct (np.setslice sequence lo hi _) as [sequence'|e] eqn:E.
    + cbn [rbind]. apply IH; [lia|].
      exists j, x, y. repeat split; try done.
      destruct (decide (j = a)) as [->|]; [|lia].
      rewrite Hlo in Hx. rewrite Hhi in Hy. injection Hx. injection Hy. lia.
    + cbn [rbind]. by rewrite (setslice_raises _ _ _ _ _ E).
Qed.

Lemma piecewise_out_of_order (bs : list Z) (vs : list Q) (s : self) :
  0 <= n_steps s -> length vs = S (length bs) -> bs <> [] ->
  ascending_from 0 bs (n_steps s) = false ->
  outcome (Schedule.piecewise_constant_decay bs vs) s = Raise ValueError.
Proof.
  intros Hn Har Hne Hasc. rewrite piecewise_loop by done.
  destruct bs as [|b0 bs]; [done|].
  change (np.append (np.append (np.int64s [0]) (np.of_list (b0 :: bs)))
            (np.int64s [n_steps s]))
    with (np.int64s (0 :: (b0 :: bs) ++ [n_steps s])).
  rewrite zeros_nonneg by done. cbn [rbind]. unfold pieces, range.
  rewrite Nat2Z.id. apply pieces_descent.
  - simpl. rewrite length_app. simpl in *. lia.
  - lia.
  - destruct (ascending_from_false 0 (b0 :: bs) (n_steps s) Hasc)
      as (j & x & y & Hx & Hy & Hlt).
    exists j, x, y. repeat split; [lia|done..].
Qed.

Ltac settle_cases :=
  repeat split; intros;
  repeat match goal with
    | H : _ /\ _ |- _ => destruct H
    | H : _ \/ _ |- _ => destruct H
    | H : ex _ |- _ => destruct H
    end;
  try done; try congruence; eauto.

(** X11: What [piecewise_constant_decay] does, by its arguments, when
    [n_steps] and the boundaries are integers below [2^62] in magnitude, so
    that the boundary array is one of int64 and no difference of two
    boundaries wraps: it returns a sequence exactly when there is one value
    per piece and the boundaries are a non-empty list with
    [0 <= b1 <= ... <= bk <= n_steps]; it raises TypeError exactly on an
    empty boundary list with its single value; it raises ValueError in
    every other case. *)
Theorem piecewise_outcomes (n : Z) (s : self)
    (boundaries : list Z) (values : list Q) :
  0 <= n -> Schedule.__init__ n = Ok s ->
  small_int n = true -> forallb small_int boundaries = true ->
  let result := outcome (Schedule.piecewise_constant_decay boundaries values) s in
  ((exists sequence, result = Ok sequence) <->
   length values = S (length boundaries) /\ partitions boundaries n = true) /\
  (result = Raise TypeError <->
   length values = S (length boundaries) /\ boundaries = []) /\
  (result = Raise ValueError <->
   length values <> S (length boundaries) \/
   (boundaries <> [] /\ ascending_from 0 boundaries n = false)).
Proof.
  intros Hn Hs _ _ result. destruct (init_inv n s Hs) as [Hns _].
  destruct (decide (length values = S (length boundaries))) as [Har|Har].
  - destruct boundaries as [|b bs].
    + destruct values as [|v [|]]; [done| |done].
      assert (result = Raise TypeError) as ->
        by (apply piecewise_no_boundaries; lia).
      simpl. settle_cases.
    + destruct (ascending_from 0 (b :: bs) n) eqn:Hasc.
      * destruct (piecewise_returns (b :: bs) values s) as (out & Hout & _);
          [lia|done|by rewrite Hns|].
        fold result in Hout. rewrite Hout.
        change (partitions (b :: bs) n) with (ascending_from 0 (b :: bs) n).
        rewrite Hasc. settle_cases.
      * assert (result = Raise ValueError) as ->.
        { apply piecewise_out_of_order; [lia|done|done|by rewrite Hns]. }
        change (partitions (b :: bs) n) with (ascending_from 0 (b :: bs) n).
        rewrite Hasc. settle_cases.
  - assert (result = Raise ValueError) as ->.
    { unfold result, outcome. by rewrite piecewise_arity_error. }
    settle_cases.
Qed.

(** X12: The values of [piecewise_constant_decay]: with one value per piece and
    boundaries [0 <= b1 <= ... <= bk <= n_steps], every position from
    boundary [k] up to, not including, boundary [k + 1] of
    [[0] + boundaries + [n_steps]] holds [values[k]]. *)
Theorem piecewise_values (n : Z) (s : self)
    (boundaries : list Z) (values : list Q) :
  0 <= n -> Schedule.__init__ n = Ok s ->
  length values = S (length boundaries) -> partitions boundaries n = true ->
  exists sequence : list f64,
    outcome (Schedule.piecewise_constant_decay boundaries values) s
      = Ok sequence /\
    Z.of_nat (length sequence) = n /\
    (forall (k j : nat) (lo hi : Z) (v : Q),
        extended boundaries n !! k = Some lo ->
        extended boundaries n !! S k = Some hi ->
        values !! k = Some v ->
        lo <= Z.of_nat j < hi ->
        sequence !! j = Some (float64 v)).
Proof.
  intros Hn Hs Har Hpart. destruct (init_inv n s Hs) as [Hns _].
  rewrite piecewise_loop, Hns by done.
  destruct boundaries as [|b0 bs]; [done|].
  change (partitions (b0 :: bs) n) with (ascending_from 0 (b0 :: bs) n) in Hpart.
  change (np.append (np.append (np.int64s [0]) (np.of_list (b0 :: bs)))
            (np.int64s [n]))
    with (np.int64s (extended (b0 :: bs) n)).
  set (B := extended (b0 :: bs) n).
  assert (length B = S (length values)) as HB
    by (unfold B, extended; simpl; rewrite length_app; simpl in *; lia).
  rewrite zeros_nonneg by done. cbn [rbind]. unfold pieces.
  destruct (for_each_range_inv
    (fun sequence value =>
       rbind (np.index_at (np.int64s B) (value + 1)) (fun hi =>
       rbind (np.index_at (np.int64s B) value) (fun lo =>
       match values !! Z.to_nat value with
       | None => Raise IndexError
       | Some v =>
           rbind (np.full (hi - lo) (float64 v)) (fun piece =>
           np.setslice sequence lo hi piece)
       end)))
    (fun done sequence =>
       length sequence = Z.to_nat n /\
       forall (k j : nat) (lo hi : Z) (v : Q),
         (k < done)%nat -> B !! k = Some lo -> B !! S k = Some hi ->
         values !! k = Some v -> lo <= Z.of_nat j < hi ->
         sequence !! j = Some (float64 v))
    (Z.of_nat (length values)) (replicate (Z.to_nat n) (float64 0)))
    as (out & Hout & Hlen & Hvals).
  - split; [by rewrite length_replicate|]. intros; lia.
  - intros i x Hi [Hx Hprev]. rewrite Nat2Z.id in Hi.
    destruct (lookup_lt_is_Some_2 B i) as [lo Hlo]; [lia|].
    destruct (lookup_lt_is_Some_2 B (S i)) as [hi Hhi]; [lia|].
    destruct (lookup_lt_is_Some_2 values i) as [v Hv]; [lia|].
    destruct (ascending_from_spec 0 (b0 :: bs) n i lo hi Hpart Hlo Hhi)
      as (H0 & Hle & Hhn).
    cbv beta. replace (Z.of_nat i + 1) with (Z.of_nat (S i)) by lia.
    rewrite (index_at_int64s B (S i) hi Hhi). cbn [rbind].
    rewrite (index_at_int64s B i lo Hlo). cbn [rbind].
    rewrite Nat2Z.id, Hv. unfold np.full.
    replace (hi - lo <? 0) with false by lia. cbn [rbind].
    rewrite setslice_exact; [|lia|lia|by rewrite length_replicate].
    eexists. split; [reflexivity|]. split.
    { rewrite !length_app, length_take, length_drop, length_replicate. lia. }
    intros k j lo' hi' v' Hk Hlo' Hhi' Hv' Hj.
    destruct (decide (k = i)) as [->|Hne].
    + rewrite Hlo in Hlo'. rewrite Hhi in Hhi'. rewrite Hv in Hv'.
      injection Hlo' as <-. injection Hhi' as <-. injection Hv' as <-.
      rewrite lookup_app_r by (rewrite length_take; lia).
      rewrite lookup_app_l
        by (rewrite length_take, length_replicate; lia).
      apply lookup_replicate_2. rewrite length_take. lia.
    + pose proof (ascending_sorted (b0 :: bs) n (S k) i hi' lo Hpart
        ltac:(lia) Hhi' Hlo) as Hord.
      rewrite lookup_app_l by (rewrite length_take; lia).
      rewrite lookup_take_lt by lia.
      apply (Hprev k j lo' hi' v'); [lia|done..].
  - exists out. split; [done|]. split; [lia|].
    intros k j lo hi v Hlo Hhi Hv Hj.
    apply (Hvals k j lo hi v); [|done..].
    apply lookup_lt_Some in Hv. lia.
Qed.

(** ** The four recurrences *)

(** A loop that writes [g i] at position [i + 1]. *)
Lemma fill_elements (n : Z) (v : f64)
    (body : list f64 -> Z -> result (list f64)) (g : nat -> f64) :
  1 <= n ->
  (forall (sequence : list f64) (i : nat),
      Z.of_nat (length sequence) = n -> Z.of_nat i < n - 1 ->
      body sequence (Z.of_nat i) = np.setitem sequence (Z.of_nat i + 1) (g i)) ->
  exists out,
    recurrence n v body = Ok out /\
    Z.of_nat (length out) = n /\
    out !! 0%nat = Some v /\
    (forall i : nat, Z.of_nat i < n - 1 -> out !! S i = Some (g i)).
Proof.
  intros Hn Hbody.
  destruct (recurrence_spec n v body (fun _ i => g i) Hn)
    as (out & Hout & Hlen & H0 & Hrec).
  { intros sequence i x Hlen Hi _. rewrite Hbody by done.
    by apply (setitem_next _ n). }
  exists out. split; [done|]. split; [done|]. split; [done|].
  intros i Hi. by destruct (Hrec i Hi) as (x & _ & Hx).
Qed.

Lemma Qpower_succ (d : Q) (k : nat) :
  (d ^ Z.of_nat (S k) == d ^ Z.of_nat k * d)%Q.
Proof.
  replace (Z.of_nat (S k)) with (Z.of_nat k + 1) by lia.
  rewrite Qpower_plus' by lia. by rewrite Qpower_1_r.
Qed.

Lemma Qpower_shrinks (d : Q) (i j : nat) :
  (0 <= d)%Q -> (d <= 1)%Q -> (i <= j)%nat ->
  (d ^ Z.of_nat j <= d ^ Z.of_nat i)%Q.
Proof.
  intros Hd0 Hd1 Hij. induction Hij as [|j Hij IH]; [apply Qle_refl|].
  eapply Qle_trans; [|exact IH].
  rewrite Qpower_succ.
  pose proof (Qpower_0_le d (Z.of_nat j) Hd0). nra.
Qed.

Section fills.

(** X13: [arithmetic_decay] on a generator of [n_steps >= 1] returns [n_steps]
    elements: the first is [initial] and element [i >= 1] is
    [max(initial - decay * (i - 1), min_value)], so the decay starts at
    element 2. *)
Theorem arithmetic_decay_elements (n : Z) (s : self)
    (initial decay min_value : Q) :
  1 <= n -> Schedule.__init__ n = Ok s ->
  exists sequence : list f64,
    outcome (Schedule.arithmetic_decay initial decay min_value) s
      = Ok sequence /\
    Z.of_nat (length sequence) = n /\
    element sequence 0 initial /\
    (forall i : nat, 1 <= Z.of_nat i < n ->
       element sequence i
         (Qmax (initial - decay * inject_Z (Z.of_nat i - 1)) min_value)).
Proof.
  intros Hn Hs. destruct (init_inv n s Hs) as [Hns _].
  rewrite arithmetic_decay_loop, Hns.
  destruct (fill_elements n (float64 initial)
    (fun sequence i =>
       np.setitem sequence (i + 1)
         (np.maximum (float64 (initial - decay * inject_Z i))
            (float64 min_value)))
    (fun i =>
       np.maximum (float64 (initial - decay * inject_Z (Z.of_nat i)))
         (float64 min_value)))
    as (out & Hout & Hlen & H0 & Hrec); [done|done|].
  exists out. split; [done|]. split; [done|]. split.
  - by apply (element_float64 _ _ initial).
  - intros [|i] Hi; [lia|].
    apply (element_float64 _ _ _ _ (Hrec i ltac:(lia))).
    replace (Z.of_nat (S i) - 1) with (Z.of_nat i) by lia.
    by rewrite !Qred_correct.
Qed.

(** X14: From element 1 on, [arithmetic_decay] never goes below [min_value],
    and for [decay >= 0] it never increases. *)
Theorem arithmetic_decay_floored (n : Z) (s : self)
    (initial decay min_value : Q) (sequence : list f64) :
  1 <= n -> Schedule.__init__ n = Ok s ->
  outcome (Schedule.arithmetic_decay initial decay min_value) s
    = Ok sequence ->
  (forall (i : nat) (x : f64),
      (1 <= i)%nat -> sequence !! i = Some x -> f64_le (Fin min_value) x) /\
  ((0 <= decay)%Q ->
   forall (i j : nat) (x y : f64),
     (1 <= i <= j)%nat -> sequence !! i = Some x -> sequence !! j = Some y ->
     f64_le y x).
Proof.
  intros Hn Hs Hseq. destruct (init_inv n s Hs) as [Hns _].
  rewrite arithmetic_decay_loop, Hns in Hseq.
  destruct (fill_elements n (float64 initial)
    (fun sequence i =>
       np.setitem sequence (i + 1)
         (np.maximum (float64 (initial - decay * inject_Z i))
            (float64 min_value)))
    (fun i =>
       np.maximum (float64 (initial - decay * inject_Z (Z.of_nat i)))
         (float64 min_value)))
    as (out & Hout & Hlen & H0 & Hrec); [done|done|].
  rewrite Hout in Hseq. injection Hseq as <-.
  assert (forall (i : nat) (x : f64), out !! S i = Some x ->
    x = float64 (Qmax (Qred (initial - decay * inject_Z (Z.of_nat i)))
                   (Qred min_value))) as Hat.
  { intros i x Hx. apply lookup_lt_Some in Hx as Hi.
    rewrite (Hrec i) in Hx by lia. by injection Hx as <-. }
  split.
  - intros [|i] x Hi Hx; [lia|]. rewrite (Hat i x Hx).
    unfold float64, f64_le. rewrite !Qred_correct. apply Q.le_max_r.
  - intros Hd [|i] [|j] x y Hij Hx Hy; try lia.
    rewrite (Hat i x Hx), (Hat j y Hy).
    unfold float64, f64_le. rewrite !Qred_correct.
    apply Q.max_le_compat_r.
    assert (inject_Z (Z.of_nat i) <= inject_Z (Z.of_nat j))%Q
      by (rewrite <- Zle_Qle; lia).
    nra.
Qed.

(** X15: [geometric_decay] applies no decay at element 1, which is
    [max(initial, min_value)]; from element 1 on it never goes below
    [min_value], and for [0 <= decay <= 1] and [initial >= 0] it never
    increases. *)
Theorem geometric_decay_floored (n : Z) (s : self)
    (initial decay min_value : Q) (sequence : list f64) :
  1 <= n -> Schedule.__init__ n = Ok s ->
  outcome (Schedule.geometric_decay initial decay min_value) s
    = Ok sequence ->
  (2 <= n -> element sequence 1 (Qmax initial min_value)) /\
  (forall (i : nat) (x : f64),
      (1 <= i)%nat -> sequence !! i = Some x -> f64_le (Fin min_value) x) /\
  ((0 <= initial)%Q -> (0 <= decay)%Q -> (decay <= 1)%Q ->
   forall (i j : nat) (x y : f64),
     (1 <= i <= j)%nat -> sequence !! i = Some x -> sequence !! j = Some y ->
     f64_le y x).
Proof.
  intros Hn Hs Hseq. destruct (init_inv n s Hs) as [Hns _].
  rewrite geometric_decay_loop, Hns in Hseq.
  assert (pow_fits decay n = true) as Hfits.
  { destruct (pow_fits decay n) eqn:Hfits; [done|]. exfalso.
    unfold recurrence in Hseq.
    rewrite zeros_nonneg in Hseq by lia. cbn [rbind] in Hseq.
    rewrite setitem_in_range in Hseq by (rewrite length_replicate; lia).
    cbn [rbind] in Hseq. unfold range in Hseq.
    rewrite (geometric_overflow initial decay min_value n
               (Z.to_nat (n - 1)) 0) in Hseq;
      [done| |lia|exact Hfits].
    rewrite length_insert, length_replicate. lia. }
  destruct (fill_elements n (float64 initial)
    (fun sequence i =>
       rbind (float_pow decay i) (fun power =>
       np.setitem sequence (i + 1)
         (np.maximum (float64 (initial * power)) (float64 min_value))))
    (fun i =>
       np.maximum (float64 (initial * decay ^ Z.of_nat i))
         (float64 min_value)))
    as (out & Hout & Hlen & H0 & Hrec); [done| |].
  { intros l i Hl Hi. by rewrite (pow_fits_at decay n i Hfits Hi). }
  rewrite Hout in Hseq. injection Hseq as <-.
  assert (forall (i : nat) (x : f64), out !! S i = Some x ->
    x = float64 (Qmax (Qred (initial * decay ^ Z.of_nat i))
                   (Qred min_value))) as Hat.
  { intros i x Hx. apply lookup_lt_Some in Hx as Hi.
    rewrite (Hrec i) in Hx by lia. by injection Hx as <-. }
  split; [|split].
  - intros Hn2. apply (element_float64 _ _ _ _ (Hrec 0%nat ltac:(lia))).
    rewrite !Qred_correct.
    assert (initial * decay ^ Z.of_nat 0 == initial)%Q as -> by (simpl; ring).
    reflexivity.
  - intros [|i] x Hi Hx; [lia|]. rewrite (Hat i x Hx).
    unfold float64, f64_le. rewrite !Qred_correct. apply Q.le_max_r.
  - intros Ha Hd0 Hd1 [|i] [|j] x y Hij Hx Hy; try lia.
    rewrite (Hat i x Hx), (Hat j y Hy).
    unfold float64, f64_le. rewrite !Qred_correct.
    apply Q.max_le_compat_r.
    pose proof (Qpower_shrinks decay i j Hd0 Hd1 ltac:(lia)). nra.
Qed.

End fills.

Lemma time_decay_elements (n : Z) (s : self) (initial rate : Q) :
  1 <= n -> Schedule.__init__ n = Ok s ->
  exists out,
    outcome (Schedule.time_decay initial rate) s = Ok out /\
    Z.of_nat (length out) = n /\
    out !! 0%nat = Some (float64 initial) /\
    (forall i : nat, Z.of_nat i < n - 1 ->
       exists x, out !! i = Some x /\
         out !! S i =
           Some (np.divide x (float64 (1 + rate * inject_Z (Z.of_nat i))))).
Proof.
  intros Hn Hs. destruct (init_inv n s Hs) as [Hns _].
  rewrite time_decay_loop, Hns.
  apply (recurrence_spec n (float64 initial) _
    (fun x i => np.divide x (float64 (1 + rate * inject_Z (Z.of_nat i)))) Hn).
  intros sequence i x Hlen Hi Hx.
  rewrite (getitem_in_range sequence (Z.of_nat i) x);
    [|lia|by rewrite Nat2Z.id].
  by apply (setitem_next _ n).
Qed.

(** X16: For [rate >= 0] every divisor of [time_decay] is at least 1:
    every element is finite, element 1 repeats element 0, which is
    [initial], and for [initial >= 0] the sequence stays at or above 0 and
    never increases. *)
Theorem time_decay_nonincreasing (n : Z) (s : self) (initial rate : Q) :
  1 <= n -> (0 <= rate)%Q -> Schedule.__init__ n = Ok s ->
  exists sequence : list f64,
    outcome (Schedule.time_decay initial rate) s = Ok sequence /\
    (forall i : nat, Z.of_nat i < n ->
       exists p, sequence !! i = Some (Fin p)) /\
    sequence !! 0%nat = Some (float64 initial) /\
    (2 <= n -> sequence !! 1%nat = Some (float64 initial)) /\
    ((0 <= initial)%Q ->
     forall (i j : nat) (x y : f64),
       (i <= j)%nat -> sequence !! i = Some x -> sequence !! j = Some y ->
       f64_le (Fin 0) y /\ f64_le y x).
Proof.
  intros Hn Hr Hs.
  destruct (time_decay_elements n s initial rate Hn Hs)
    as (out & Hout & Hlen & H0 & Hrec).
  assert (forall i : nat, (1 <= 1 + rate * inject_Z (Z.of_nat i))%Q) as Hd.
  { intros i.
    assert (0 <= rate * inject_Z (Z.of_nat i))%Q
      by (apply Qmult_le_0_compat; [done|apply inject_Z_nonneg; lia]).
    lra. }
  assert (forall (i : nat) (p : Q), Z.of_nat i < n - 1 ->
    out !! i = Some (Fin p) ->
    exists q, out !! S i = Some (Fin q) /\
      (q == p / (1 + rate * inject_Z (Z.of_nat i)))%Q) as Hstep.
  { intros i p Hi Hp. destruct (Hrec i Hi) as (x & Hx & Hnext).
    rewrite Hp in Hx. injection Hx as <-.
    destruct (divide_finite p (1 + rate * inject_Z (Z.of_nat i)))
      as (q & Eq & Hq); [specialize (Hd i); intros E; lra|].
    exists q. split; [by rewrite Hnext, Eq|done]. }
  assert (forall i : nat, Z.of_nat i < n ->
    exists p, out !! i = Some (Fin p) /\ ((0 <= initial)%Q -> (0 <= p)%Q))
    as Hfin.
  { induction i as [|i IH]; intros Hi.
    - exists (Qred initial). split; [done|]. by rewrite Qred_correct.
    - destruct (IH ltac:(lia)) as (p & Hp & Hpos).
      destruct (Hstep i p ltac:(lia) Hp) as (q & Hq & Eq).
      exists q. split; [done|]. intros Ha. rewrite Eq.
      apply Qle_shift_div_l; [specialize (Hd i); lra|].
      rewrite Qmult_0_l. by apply Hpos. }
  exists out. split; [done|]. split; [|split; [done|split]].
  - intros i Hi. destruct (Hfin i Hi) as (p & Hp & _). eauto.
  - intros Hn2. destruct (Hrec 0%nat ltac:(lia)) as (x & Hx & Hnext).
    rewrite H0 in Hx. injection Hx as <-. rewrite Hnext. f_equal.
    unfold np.divide, float64.
    rewrite Qeq_bool_false
      by (rewrite Qred_correct; specialize (Hd 0%nat); intros E; lra).
    apply float64_eq. rewrite !Qred_correct. simpl. field.
  - intros Ha i j. revert i. induction j as [|j IH]; intros i x y Hij Hx Hy.
    + assert (i = 0%nat) as -> by lia. rewrite Hx in Hy. injection Hy as <-.
      apply lookup_lt_Some in Hx as Hlt.
      destruct (Hfin 0%nat ltac:(lia)) as (p & Hp & Hpos).
      rewrite Hp in Hx. injection Hx as <-. simpl.
      split; [by apply Hpos|apply Qle_refl].
    + apply lookup_lt_Some in Hy as Hlt.
      destruct (Hfin j ltac:(lia)) as (p & Hp & Hpos).
      destruct (Hstep j p ltac:(lia) Hp) as (q & Hq & Eq).
      rewrite Hq in Hy. injection Hy as <-.
      assert (0 <= q /\ q <= p)%Q as [Hq0 Hqp].
      { specialize (Hd j). specialize (Hpos Ha). rewrite Eq. split.
        - apply Qle_shift_div_l; [lra|]. by rewrite Qmult_0_l.
        - apply Qle_shift_div_r; [lra|]. nra. }
      destruct (decide (i = S j)) as [->|Hne].
      * rewrite Hq in Hx. injection Hx as <-. simpl.
        split; [done|apply Qle_refl].
      * destruct (IH i x (Fin p) ltac:(lia) Hx Hp) as [_ Hpx].
        destruct x as [px|]; [|done]. simpl in *.
        split; [done|]. by apply (Qle_trans _ p).
Qed.

(** X17: When a divisor [1 + rate * k] of [time_decay] is zero, element [k + 1]
    and every element after it is not finite. *)
Theorem time_decay_zero_divisor (n : Z) (s : self) (initial rate : Q)
    (k : nat) :
  1 <= n -> Schedule.__init__ n = Ok s ->
  Z.of_nat k < n - 1 -> (1 + rate * inject_Z (Z.of_nat k) == 0)%Q ->
  exists sequence : list f64,
    outcome (Schedule.time_decay initial rate) s = Ok sequence /\
    (forall i : nat, (k < i)%nat -> Z.of_nat i < n ->
       sequence !! i = Some NotFinite).
Proof.
  intros Hn Hs Hk Hzero.
  destruct (time_decay_elements n s initial rate Hn Hs)
    as (out & Hout & Hlen & H0 & Hrec).
  exists out. split; [done|].
  assert (forall x : f64,
    np.divide x (float64 (1 + rate * inject_Z (Z.of_nat k))) = NotFinite)
    as Hdiv.
  { intros [p|]; [|done]. unfold np.divide, float64.
    rewrite Qeq_bool_true; [done|]. by rewrite Qred_correct. }
  induction i as [|i IH]; intros Hki Hi; [lia|].
  destruct (Hrec i ltac:(lia)) as (x & Hx & Hnext). rewrite Hnext.
  destruct (decide (i = k)) as [->|Hne]; [by rewrite Hdiv|].
  rewrite IH in Hx by lia. by injection Hx as <-.
Qed.

Section steps.
Context `{Libm}.

(** X18: With [i_drop > 0], [step_decay] returns [initial] at every element
    before position [i_drop]: the first drop is applied at element
    [i_drop], and never when [i_drop >= n_steps]. *)
Theorem step_decay_first_block (n : Z) (s : self) (initial drop : Q)
    (i_drop : Z) :
  1 <= n -> 0 < i_drop -> Schedule.__init__ n = Ok s ->
  exists sequence : list f64,
    outcome (Schedule.step_decay initial drop i_drop) s = Ok sequence /\
    (forall i : nat, Z.of_nat i < n -> Z.of_nat i < i_drop ->
       element sequence i initial) /\
    (i_drop < n -> element sequence (Z.to_nat i_drop) (initial * drop)).
Proof.
  intros Hn Hdrop Hs. destruct (init_inv n s Hs) as [Hns _].
  rewrite step_decay_loop, Hns.
  destruct (fill_elements n (float64 initial)
    (fun sequence i =>
       rbind (Schedule.truediv (1 + i) i_drop) (fun q =>
       np.setitem sequence (i + 1)
         (np.multiply (float64 initial)
            (np.power (float64 drop) (np.floor (float64 q))))))
    (fun i =>
       np.multiply (float64 initial)
         (np.power (float64 drop)
            (np.floor (float64 (inject_Z (1 + Z.of_nat i) / inject_Z i_drop))))))
    as (out & Hout & Hlen & H0 & Hrec); [done| |].
  { intros sequence i Hlen Hi. unfold Schedule.truediv.
    by replace (i_drop =? 0) with false by lia. }
  assert (0 < inject_Z i_drop)%Q as Hd by (apply inject_Z_pos; lia).
  assert (forall (i : nat) (k : Z), Z.of_nat i < n - 1 -> 0 <= k ->
    Qfloor (inject_Z (1 + Z.of_nat i) / inject_Z i_drop) = k ->
    element out (S i) (initial * drop ^ k)) as Hel.
  { intros i k Hi Hk Hfl. specialize (Hrec i Hi).
    rewrite floor_float64, power_integer, Hfl in Hrec.
    replace (k <? 0) with false in Hrec by lia.
    apply (element_float64 _ _ _ _ Hrec). by rewrite !Qred_correct. }
  exists out. split; [done|]. split.
  - intros [|i] Hi Hlt; [by apply (element_float64 _ _ initial)|].
    destruct (Hel i 0) as (p & Hp & Ep); [lia|lia| |].
    + apply Qfloor_unique.
      * apply Qle_shift_div_l; [done|]. rewrite Qmult_0_l.
        apply inject_Z_nonneg. lia.
      * apply Qlt_shift_div_r; [done|].
        rewrite <- inject_Z_mult, <- Zlt_Qlt. lia.
    + exists p. split; [done|]. rewrite Ep. simpl. ring.
  - intros Hlt. destruct (Z.to_nat i_drop) as [|i] eqn:E; [lia|].
    destruct (Hel i 1) as (p & Hp & Ep); [lia|lia| |].
    + replace (1 + Z.of_nat i) with i_drop by lia. apply Qfloor_unique.
      * apply Qle_shift_div_l; [done|]. rewrite Qmult_1_l. apply Qle_refl.
      * apply Qlt_shift_div_r; [done|].
        rewrite <- inject_Z_mult, <- Zlt_Qlt. lia.
    + exists p. split; [done|]. rewrite Ep. simpl. ring.
Qed.

End steps.

(** ** A single step *)

Section single_step.
Context `{Libm}.

(** X19: On a generator of one step nothing divides by [n_steps - 1]: the
    exponential and inverse-time decays, with or without staircase, and the
    four recurrences, [step_decay] with [i_drop = 0] included, all return
    the one-element sequence [[initial]]. *)
Theorem single_step_outcomes (s : self) :
  Schedule.__init__ 1 = Ok s ->
  (forall a r b, exists x,
      outcome (Schedule.exponential_decay a r b) s = Ok [x] /\
      element [x] 0 a) /\
  (forall a r b, exists x,
      outcome (Schedule.inverse_time_decay a r b) s = Ok [x] /\
      element [x] 0 a) /\
  (forall a d m,
      outcome (Schedule.geometric_decay a d m) s = Ok [float64 a]) /\
  (forall a d m,
      outcome (Schedule.arithmetic_decay a d m) s = Ok [float64 a]) /\
  (forall a r, outcome (Schedule.time_decay a r) s = Ok [float64 a]) /\
  (forall a d k, outcome (Schedule.step_decay a d k) s = Ok [float64 a]).
Proof.
  intros Hs. destruct (init_inv 1 s Hs) as [Hns Hst].
  assert (steps s = [Fin 0]) as Hsteps.
  { change (Ok [Fin 0] = Ok (steps s)) in Hst. by injection Hst. }
  repeat split; intros.
  - exists (float64 (Qred a * Qred (Qred r ^ 0))). split.
    + destruct b.
      * rewrite exponential_decay_staircase, Hsteps, Hns. reflexivity.
      * rewrite exponential_decay_smooth, Hsteps, Hns. reflexivity.
    + eapply element_float64; [reflexivity|].
      rewrite !Qred_correct. simpl. ring.
  - assert (np.divide (float64 a)
              (np.add (float64 1) (np.multiply (float64 r) (float64 0)))
            = float64 (Qred a / Qred (Qred 1 + Qred (Qred r * Qred 0)))) as E.
    { rewrite inverse_time_value, Qeq_bool_false; [done|].
      assert (1 + r * 0 == 1)%Q as -> by ring. intros E; discriminate E. }
    eexists. split.
    + destruct b.
      * rewrite inverse_time_decay_staircase, Hsteps, Hns.
        cbn [fmap list_fmap].
        change (np.floor (np.divide (Fin 0) (of_int 1))) with (float64 0).
        rewrite E. reflexivity.
      * rewrite inverse_time_decay_smooth, Hsteps, Hns.
        cbn [fmap list_fmap].
        change (np.divide (Fin 0) (of_int 1)) with (float64 0).
        rewrite E. reflexivity.
    + eapply element_float64; [reflexivity|].
      rewrite !Qred_correct. field.
  - by rewrite geometric_decay_loop, Hns.
  - by rewrite arithmetic_decay_loop, Hns.
  - by rewrite time_decay_loop, Hns.
  - by rewrite step_decay_loop, Hns.
Qed.

End single_step.


(** ** The further properties on concrete generators *)

Lemma zero_steps_outcomes_witness :
  outcome (Schedule.geometric_decay 1 (1 # 2) 0) (generator 0)
    = Raise IndexError /\
  outcome (Schedule.constant 1) (generator 0) = Ok [].
Proof.
  destruct (@zero_steps_outcomes coarse_libm (generator 0))
    as (Hgeo & _ & _ & _ & _ & _ & _ & _ & Hconst); [reflexivity|].
  split; [apply Hgeo|apply Hconst].
Defined.

Lemma constant_repeats_witness :
  outcome (Schedule.constant (1 # 2)) (generator 3)
    = Ok [Fin (1 # 2); Fin (1 # 2); Fin (1 # 2)].
Proof.
  apply (constant_repeats 3 (generator 3) (1 # 2)); [lia|reflexivity].
Defined.

Lemma step_decay_zero_drop_witness :
  outcome (@Schedule.step_decay coarse_libm 1 (1 # 2) 0) (generator 3)
    = Raise ZeroDivisionError.
Proof.
  apply (@step_decay_zero_drop coarse_libm 3 (generator 3) 1 (1 # 2));
    [lia|reflexivity|lia].
Defined.

Lemma cosine_decay_alpha_one_witness :
  exists sequence : list f64,
    outcome (@Schedule.cosine_decay coarse_libm 3 1) (generator 4)
      = Ok sequence /\
    element sequence 2 3.
Proof.
  destruct (@cosine_decay_alpha_one coarse_libm 4 (generator 4) 3)
    as (sequence & Hout & _ & Hel); [lia|reflexivity|].
  exists sequence. split; [exact Hout|]. apply (Hel 2%nat). lia.
Defined.

Lemma exponential_decay_endpoints_witness :
  exists sequence : list f64,
    outcome (@Schedule.exponential_decay coarse_libm 3 (1 # 2) false)
      (generator 4) = Ok sequence /\
    element sequence 0 3 /\ element sequence 3 (3 * (1 # 2)).
Proof.
  destruct (@exponential_decay_endpoints coarse_libm 4 (generator 4) 3 (1 # 2))
    as (sequence & Hout & _ & Hfirst & Hlast); [lia|reflexivity|].
  exists sequence. split; [exact Hout|]. split; [exact Hfirst|exact Hlast].
Defined.

Lemma inverse_time_decay_endpoints_witness :
  exists sequence : list f64,
    outcome (Schedule.inverse_time_decay 3 (1 # 2) false) (generator 4)
      = Ok sequence /\
    element sequence 0 3 /\ element sequence 3 (3 / (1 + (1 # 2))).
Proof.
  destruct (inverse_time_decay_endpoints 4 (generator 4) 3 (1 # 2))
    as (sequence & Hout & _ & Hfirst & Hlast); [lia|reflexivity|].
  exists sequence. split; [exact Hout|]. split; [exact Hfirst|exact Hlast].
Defined.

Lemma inverse_time_decay_stairs_witness :
  exists sequence : list f64,
    outcome (Schedule.inverse_time_decay 3 (-1) true) (generator 4)
      = Ok sequence /\
    element sequence 2 3 /\ sequence !! 3%nat = Some NotFinite.
Proof.
  destruct (inverse_time_decay_stairs 4 (generator 4) 3 (-1))
    as (sequence & Hout & _ & Hhead & Hlast); [lia|reflexivity|].
  exists sequence. split; [exact Hout|]. split; [|exact Hlast].
  apply (Hhead 2%nat). lia.
Defined.


Lemma polynomial_decay_cycle_matches_witness :
  exists cyclic plain : list f64,
    outcome (@Schedule.polynomial_decay coarse_libm 3 1 2 true) (generator 5)
      = Ok cyclic /\
    outcome (@Schedule.polynomial_decay coarse_libm 3 1 2 false) (generator 5)
      = Ok plain /\
    cyclic !! 1%nat = plain !! 1%nat.
Proof.
  destruct (@polynomial_decay_cycle_matches coarse_libm 5 (generator 5) 3 1 2)
    as (cyclic & plain & Hc & Hp & Hsame); [lia|reflexivity|].
  exists cyclic, plain. split; [exact Hc|]. split; [exact Hp|].
  apply Hsame. lia.
Defined.

Lemma piecewise_outcomes_witness :
  outcome (Schedule.piecewise_constant_decay [4; 2] [1; 2; 3]%Q) (generator 6)
    = Raise ValueError.
Proof.
  apply (piecewise_outcomes 6 (generator 6) [4; 2] [1; 2; 3]%Q);
    [lia|reflexivity|reflexivity|reflexivity|].
  right. split; [discriminate|reflexivity].
Defined.

Lemma piecewise_values_witness :
  exists sequence : list f64,
    outcome (Schedule.piecewise_constant_decay [2; 4] [1; 2; 3]%Q)
      (generator 6) = Ok sequence /\
    sequence !! 3%nat = Some (Fin 2).
Proof.
  destruct (piecewise_values 6 (generator 6) [2; 4] [1; 2; 3]%Q)
    as (sequence & Hout & _ & Hval);
    [lia|reflexivity|reflexivity|reflexivity|].
  exists sequence. split; [exact Hout|].
  apply (Hval 1%nat 3%nat 2 4 2%Q); [reflexivity|reflexivity|reflexivity|lia].
Defined.

Lemma arithmetic_decay_elements_witness :
  exists sequence : list f64,
    outcome (Schedule.arithmetic_decay 10 3 2) (generator 5) = Ok sequence /\
    element sequence 3 (Qmax (10 - 3 * 2) 2).
Proof.
  destruct (arithmetic_decay_elements 5 (generator 5) 10 3 2)
    as (sequence & Hout & _ & _ & Hel); [lia|reflexivity|].
  exists sequence. split; [exact Hout|]. apply (Hel 3%nat). lia.
Defined.

Lemma arithmetic_decay_floored_witness :
  f64_le (Fin 2) (Fin 2) /\ f64_le (Fin 4) (Fin 7).
Proof.
  destruct (arithmetic_decay_floored 5 (generator 5) 10 3 2
              [Fin 10; Fin 10; Fin 7; Fin 4; Fin 2])
    as [Hfloor Hmono]; [lia|reflexivity|reflexivity|].
  split.
  - apply (Hfloor 4%nat); [lia|reflexivity].
  - apply (Hmono ltac:(discriminate) 2%nat 3%nat); [lia|reflexivity..].
Defined.

Lemma geometric_decay_floored_witness :
  element [Fin 10; Fin 10; Fin 5; Fin (5 # 2)] 1 (Qmax 10 1) /\
  f64_le (Fin (5 # 2)) (Fin 5).
Proof.
  destruct (geometric_decay_floored 4 (generator 4) 10 (1 # 2) 1
              [Fin 10; Fin 10; Fin 5; Fin (5 # 2)])
    as (Hsecond & _ & Hmono); [lia|reflexivity|reflexivity|].
  split; [apply Hsecond; lia|].
  apply (Hmono ltac:(discriminate) ltac:(discriminate) ltac:(discriminate)
           2%nat 3%nat); [lia|reflexivity..].
Defined.

Lemma time_decay_nonincreasing_witness :
  exists sequence : list f64,
    outcome (Schedule.time_decay 1 (1 # 2)) (generator 5) = Ok sequence /\
    sequence !! 1%nat = Some (Fin 1) /\
    (exists p, sequence !! 4%nat = Some (Fin p)).
Proof.
  destruct (time_decay_nonincreasing 5 (generator 5) 1 (1 # 2))
    as (sequence & Hout & Hfinite & _ & Hsecond & _);
    [lia|discriminate|reflexivity|].
  exists sequence. split; [exact Hout|]. split.
  - apply Hsecond. lia.
  - apply (Hfinite 4%nat). lia.
Defined.

Lemma time_decay_zero_divisor_witness :
  exists sequence : list f64,
    outcome (Schedule.time_decay 1 (- (1 # 2))) (generator 5) = Ok sequence /\
    sequence !! 3%nat = Some NotFinite /\ sequence !! 4%nat = Some NotFinite.
Proof.
  destruct (time_decay_zero_divisor 5 (generator 5) 1 (- (1 # 2)) 2)
    as (sequence & Hout & Hnan); [lia|reflexivity|lia|reflexivity|].
  exists sequence. split; [exact Hout|].
  split; apply Hnan; lia.
Defined.

Lemma step_decay_first_block_witness :
  exists sequence : list f64,
    outcome (@Schedule.step_decay coarse_libm 1 (1 # 2) 3) (generator 5)
      = Ok sequence /\
    element sequence 2 1 /\ element sequence 3 (1 * (1 # 2)).
Proof.
  destruct (@step_decay_first_block coarse_libm 5 (generator 5) 1 (1 # 2) 3)
    as (sequence & Hout & Hhead & Hdrop); [lia|lia|reflexivity|].
  exists sequence. split; [exact Hout|]. split.
  - apply (Hhead 2%nat); lia.
  - apply Hdrop. lia.
Defined.

Lemma single_step_outcomes_witness :
  outcome (@Schedule.step_decay coarse_libm 7 (1 # 2) 0) (generator 1)
    = Ok [Fin 7].
Proof.
  destruct (@single_step_outcomes coarse_libm (generator 1))
    as (_ & _ & _ & _ & _ & Hstep); [reflexivity|].
  apply Hstep.
Defined.
